(** * Self-Updating-Agent: snippet execution and snippet placement

  A shallow embedding of [src/code_exec.py] (class
  [CodeExecutionManager]), [src/Snippet_maching.py] (classes
  [SnippetMatcher] and [SnippetUpdater]) and the helpers of
  [src/main.py], followed by the properties of these programs.

  Conventions of the embedding:
  - a Python [str] is a list of characters; a character is a code point
    below 256 (type [ascii]);
  - a Python [float] score is an exact rational ([Q]);
  - a Python exception is a value of type [exn]; a function that may
    raise returns a [result];
  - the interpreter services the code calls but does not define
    ([ast.parse], [dir(builtins)]) are fields of a [Host] record;
  - the file system is a finite map from paths to entries, threaded
    through the functions that touch it together with the log of the
    operations performed and with the way the environment treats a
    write to each path (it goes through, it is refused, or it breaks
    off). *)

From Stdlib Require Import QArith Qround Lqa Ascii String DecimalString.
From stdpp Require Import base list gmap strings sorting.

Set Warnings "-register-all".

Abbreviation str := (list ascii).

(** ** Python string primitives *)
Module PyStr.

(** A string literal. *)
Definition py (s : string) : str := list_ascii_of_string s.

Definition LF : ascii := "010"%char.
Definition CR : ascii := "013"%char.

(** [str.isspace] on one character: U+0009..U+000D, U+001C..U+0020,
    U+0085 and U+00A0. *)
Definition isspace (c : ascii) : bool :=
  let n := N_of_ascii c in
  ((9 <=? n) && (n <=? 13) || (28 <=? n) && (n <=? 32)
   || (n =? 133) || (n =? 160))%N.

(** The line boundaries of [str.splitlines]: LF, VT, FF, CR, FS, GS, RS
    and NEL. *)
Definition is_linebreak (c : ascii) : bool :=
  let n := N_of_ascii c in
  ((10 <=? n) && (n <=? 13) || (28 <=? n) && (n <=? 30) || (n =? 133))%N.

(** [s.lstrip()] *)
Fixpoint lstrip (s : str) : str :=
  match s with
  | [] => []
  | c :: s' => if isspace c then lstrip s' else s
  end.

(** [s.rstrip()] *)
Definition rstrip (s : str) : str := rev (lstrip (rev s)).

(** [s.strip()] *)
Definition strip (s : str) : str := lstrip (rstrip s).

(** [s.splitlines()]: CR LF counts as one boundary, and a final
    boundary opens no further line. *)
Fixpoint splitlines (s : str) : list str :=
  match s with
  | [] => []
  | c :: s' =>
      if is_linebreak c then
        [] :: (if Ascii.eqb c CR then
                 match s' with
                 | d :: s'' => if Ascii.eqb d LF then splitlines s''
                               else splitlines s'
                 | [] => []
                 end
               else splitlines s')
      else
        match splitlines s' with
        | [] => [[c]]
        | l :: ls => (c :: l) :: ls
        end
  end.

(** [s.split()]: the maximal runs of non-whitespace characters; [cur]
    is the run being read, most recent character first. *)
Fixpoint split_from (cur : str) (s : str) : list str :=
  match s with
  | [] => match cur with [] => [] | _ => [rev cur] end
  | c :: s' =>
      if isspace c then
        match cur with
        | [] => split_from [] s'
        | _ => rev cur :: split_from [] s'
        end
      else split_from (c :: cur) s'
  end.

Definition split (s : str) : list str := split_from [] s.

(** [s.split(sep)[0]] for a one-character separator. *)
Fixpoint split_head (sep : ascii) (s : str) : str :=
  match s with
  | [] => []
  | c :: s' => if Ascii.eqb c sep then [] else c :: split_head sep s'
  end.

(** [s.startswith(p)] *)
Fixpoint startswith (s p : str) {struct p} : bool :=
  match p, s with
  | [], _ => true
  | a :: p', b :: s' => Ascii.eqb a b && startswith s' p'
  | _ :: _, [] => false
  end.

(** [sub in s] *)
Fixpoint contains (sub s : str) : bool :=
  startswith s sub ||
  match s with
  | [] => false
  | _ :: s' => contains sub s'
  end.

(** [sep.join(parts)] *)
Fixpoint join (sep : str) (parts : list str) : str :=
  match parts with
  | [] => []
  | [x] => x
  | x :: rest => x ++ sep ++ join sep rest
  end.

(** [l[-n:]] for a positive literal [n]. *)
Definition last_n {A} (n : nat) (l : list A) : list A :=
  drop (length l - n) l.

(** One end of a slice, as [slice.indices] normalises it. *)
Definition slice_index (len : nat) (i : Z) : nat :=
  let i' := if (i <? 0)%Z then (i + Z.of_nat len)%Z else i in
  Z.to_nat (Z.min (Z.max i' 0) (Z.of_nat len)).

(** [l[a:b]] *)
Definition slice {A} (l : list A) (a b : Z) : list A :=
  let lo := slice_index (length l) a in
  let hi := slice_index (length l) b in
  take (hi - lo) (drop lo l).

(** [str(n)] for an [int]. *)
Definition str_of_int (n : Z) : str :=
  py (NilEmpty.string_of_int (Z.to_int n)).

(** The leading whitespace of a line,
    [line[:len(line) - len(line.lstrip())]]. *)
Definition leading_ws (line : str) : str :=
  take (length line - length (lstrip line)) line.

(** [l[:stop]] *)
Definition slice_to {A} (l : list A) (stop : Z) : list A :=
  take (slice_index (length l) stop) l.

(** [l[start:]] *)
Definition slice_from {A} (l : list A) (start : Z) : list A :=
  drop (slice_index (length l) start) l.

(** [s.split(sep)] for a one-character separator: the result always has
    a first element. *)
Fixpoint split_on (sep : ascii) (s : str) : list str :=
  match s with
  | [] => [[]]
  | c :: s' =>
      if Ascii.eqb c sep then [] :: split_on sep s'
      else match split_on sep s' with
           | [] => [[c]]
           | l :: ls => (c :: l) :: ls
           end
  end.

End PyStr.

(** ** Exceptions and results *)
Module Py.

Inductive exn :=
| SyntaxError (msg : str)
| ValueError (msg : str)
| AttributeError
| IndexError
| ZeroDivisionError
| UnicodeDecodeError
| FileNotFoundError (msg : str)
| IsADirectoryError
| NotADirectoryError
| SameFileError
| PermissionError
| OSError.

Inductive result (A : Type) :=
| Ok (a : A)
| Raise (e : exn).
Arguments Ok {A} a.
Arguments Raise {A} e.

Definition bind {A B} (r : result A) (k : A -> result B) : result B :=
  match r with
  | Ok a => k a
  | Raise e => Raise e
  end.

(** [str(e)] for the exceptions that carry a message. *)
Definition exn_str (e : exn) : str :=
  match e with
  | SyntaxError m | ValueError m | FileNotFoundError m => m
  | _ => []
  end.

(** [l[i]]: a negative index counts from the end. *)
Definition index {A} (l : list A) (i : Z) : result A :=
  let i' := if (i <? 0)%Z then (i + Z.of_nat (length l))%Z else i in
  if (i' <? 0)%Z then Raise IndexError
  else match l !! Z.to_nat i' with
       | Some x => Ok x
       | None => Raise IndexError
       end.

End Py.

(** ** Syntax trees, as far as the code inspects them *)
Module PyAst.

Record alias := { alias_name : str; alias_asname : option str }.

(** The node classes the code tests with [isinstance], with the fields
    it reads; every other class is [Other] with its child nodes. *)
Inductive node :=
| Name (id : str) (ctx : node)
| Import (names : list alias)
| ImportFrom (module : option str) (names : list alias) (level : nat)
| Delete (targets : list node)
| Call (func : node) (args : list node) (keywords : list node)
| Attribute (value : node) (attr : str) (ctx : node)
| AliasNode (a : alias)
| Other (cls : str) (fields : list node).

(** [ast.iter_child_nodes] *)
Definition iter_child_nodes (n : node) : list node :=
  match n with
  | Name _ ctx => [ctx]
  | Import names => map AliasNode names
  | ImportFrom _ names _ => map AliasNode names
  | Delete targets => targets
  | Call func args keywords => func :: args ++ keywords
  | Attribute value _ ctx => [value; ctx]
  | AliasNode _ => []
  | Other _ fields => fields
  end.

(** Number of nodes of a tree. *)
Fixpoint node_count (n : node) : nat :=
  S (match n with
     | Name _ ctx => node_count ctx
     | Import names => length names
     | ImportFrom _ names _ => length names
     | Delete targets => list_sum (map node_count targets)
     | Call func args keywords =>
         node_count func + (list_sum (map node_count args) + list_sum (map node_count keywords))
     | Attribute value _ ctx => node_count value + node_count ctx
     | AliasNode _ => 0
     | Other _ fields => list_sum (map node_count fields)
     end).

(** [ast.walk]: pop the first node of the queue, append its children,
    yield it.  The fuel bounds the number of nodes yielded. *)
Fixpoint walk_queue (fuel : nat) (todo : list node) : list node :=
  match fuel with
  | 0 => []
  | S fuel' =>
      match todo with
      | [] => []
      | n :: rest => n :: walk_queue fuel' (rest ++ iter_child_nodes n)
      end
  end.

Definition walk (tree : node) : list node := walk_queue (node_count tree) [tree].

(** [n] is a node of [tree]. *)
Inductive node_of : node -> node -> Prop :=
| node_of_root tree : node_of tree tree
| node_of_child n c tree :
    c ∈ iter_child_nodes tree -> node_of n c -> node_of n tree.

End PyAst.

(** The interpreter services the code relies on. *)
Record Host := {
(** [ast.parse] *)
ast_parse : str -> Py.result PyAst.node;
(** [dir(builtins)] *)
dir_builtins : list str
}.

(** ** [src/code_exec.py]: class [CodeExecutionManager] *)
Module CodeExec.
Import PyStr Py PyAst.

(** [self.safe_builtins] *)
Definition safe_builtins : gset str :=
  list_to_set (map py
    ["abs"; "all"; "any"; "ascii"; "bin"; "bool"; "bytes"; "chr";
     "dict"; "dir"; "divmod"; "enumerate"; "filter"; "float"; "format";
     "frozenset"; "hash"; "hex"; "int"; "isinstance"; "issubclass"; "len";
     "list"; "map"; "max"; "min"; "next"; "oct"; "ord"; "pow"; "print";
     "range"; "repr"; "reversed"; "round"; "set"; "slice"; "sorted";
     "str"; "sum"; "tuple"; "type"; "zip"]%string).

(** [self.allowed_modules] *)
Definition allowed_modules : gset str :=
  list_to_set (map py
    ["math"; "random"; "datetime"; "collections"; "itertools";
     "functools"; "operator"; "string"; "re"; "json"; "copy"]%string).

(** [name.split('.')[0]] *)
Definition top_module (name : str) : str := split_head "."%char name.

(** The body of the loop of [_is_safe_code] at one node: [Ok true] when
    the loop goes on to the next node, [Ok false] when the function
    returns [False], [Raise] when an exception leaves the loop. *)
Definition check_node (h : Host) (n : node) : result bool :=
  match n with
  | Name id _ =>
      if bool_decide (id ∉ safe_builtins) && bool_decide (id ∈ dir_builtins h)
      then Ok false else Ok true
  | Import names =>
      if forallb (fun a => bool_decide (top_module (alias_name a) ∈ allowed_modules))
                 names
      then Ok true else Ok false
  | ImportFrom None _ _ => Raise AttributeError
  | ImportFrom (Some m) _ _ =>
      if bool_decide (top_module m ∈ allowed_modules) then Ok true else Ok false
  | Delete _ => Ok false
  | Call (Name id _) _ _ =>
      if bool_decide (id = py "eval") || bool_decide (id = py "exec")
      then Ok false else Ok true
  | Call _ _ _ => Ok true
  | Attribute _ attr _ =>
      if startswith attr (py "__") then Ok false else Ok true
  | AliasNode _ => Ok true
  | Other _ _ => Ok true
  end.

(** The loop [for node in ast.walk(tree)] followed by [return True]. *)
Fixpoint check_nodes (h : Host) (nodes : list node) : result bool :=
  match nodes with
  | [] => Ok true
  | n :: rest =>
      match check_node h n with
      | Ok true => check_nodes h rest
      | Ok false => Ok false
      | Raise e => Raise e
      end
  end.

(** [CodeExecutionManager._is_safe_code]: only [SyntaxError] is caught. *)
Definition _is_safe_code (h : Host) (code : str) : result bool :=
  match ast_parse h code with
  | Raise (SyntaxError _) => Ok false
  | Raise e => Raise e
  | Ok tree => check_nodes h (walk tree)
  end.

Section Execution.
(** Values bound by the executed code. *)
Context {PyObj : Type}.

(** The result dictionary; a key that a given dictionary lacks is
    [None]. *)
Record ExecResult := {
  success : bool;
  output : str;
  error : str;
  execution_time : option Q;
  local_vars : option (gmap str PyObj)
}.

(** What [exec(code, restricted_globals, local_vars)] does in the worker:
    it returns, raises an [Exception], or leaves the worker in a way the
    handler does not catch. *)
Inductive exec_obs :=
| ExecReturns (stdout : str) (locals : gmap str PyObj)
| ExecRaises (stdout : str) (type_name msg trace : str)
| ExecEscapes.

(** The worker [execute]: what it puts on [self.result_queue]. *)
Definition execute (e : exec_obs) : option ExecResult :=
  match e with
  | ExecReturns stdout locals =>
      Some {| success := true; output := stdout; error := [];
              execution_time := None; local_vars := Some locals |}
  | ExecRaises stdout type_name msg trace =>
      Some {| success := false; output := stdout;
              error := type_name ++ py ": " ++ msg ++ [LF] ++ trace;
              execution_time := None; local_vars := Some ∅ |}
  | ExecEscapes => None
  end.

(** What the parent observes of the worker after
    [execution_thread.join(timeout=self.timeout)]. *)
Inductive worker_obs :=
| StillAlive (captured : str)
| Exited (e : exec_obs) (elapsed : Q).

(** The parent's interactions with the worker and the queue. *)
Inductive event :=
| ThreadStart
| Join (timeout : Z)
| QueueGet.

Inductive outcome :=
| Returned (r : ExecResult)
| Raised (e : exn)
| Blocked.

(** [round(x, 3)] on an exact rational: to the nearest thousandth, ties
    to the even one. *)
Definition round_half_even (q : Q) : Z :=
  let f := Qfloor q in
  match (q - inject_Z f ?= 1 # 2)%Q with
  | Lt => f
  | Gt => (f + 1)%Z
  | Eq => if Z.even f then f else (f + 1)%Z
  end.

Definition round3 (q : Q) : Q := (inject_Z (round_half_even (q * 1000)) / 1000)%Q.

(** [CodeExecutionManager.execute_code].  [timeout] is [self.timeout],
    [queue] what earlier calls left on [self.result_queue], [w] the
    behaviour of the worker.  The result comes with the events of the
    call, in order. *)
Definition execute_code (h : Host) (timeout : Z) (queue : list ExecResult)
    (w : worker_obs) (code : str) : outcome * list event :=
  match _is_safe_code h code with
  | Raise e => (Raised e, [])
  | Ok false =>
      (Returned {| success := false; output := [];
                   error := py "Code contains unsafe operations or imports";
                   execution_time := Some 0%Q; local_vars := None |}, [])
  | Ok true =>
      match w with
      | StillAlive captured =>
          (Returned {| success := false; output := captured;
                       error := py "Execution timed out after "
                                ++ str_of_int timeout ++ py " seconds";
                       execution_time := Some (inject_Z timeout);
                       local_vars := None |},
           [ThreadStart; Join timeout])
      | Exited e elapsed =>
          match queue ++ option_list (execute e) with
          | [] => (Blocked, [ThreadStart; Join timeout; QueueGet])
          | result :: _ =>
              (Returned {| success := success result; output := output result;
                           error := error result;
                           execution_time := Some (round3 elapsed);
                           local_vars := local_vars result |},
               [ThreadStart; Join timeout; QueueGet])
          end
      end
  end.

(** What a call leaves on [self.result_queue] when it returns, [queue]
    being what it found there: a worker that has exited has put its
    report, if it made one, at the end, and the parent has taken the first
    item; a refusal and a timeout leave the queue as it is. *)
Definition queue_after (h : Host) (queue : list ExecResult) (w : worker_obs)
    (code : str) : list ExecResult :=
  match _is_safe_code h code with
  | Ok true =>
      match w with
      | StillAlive _ => queue
      | Exited e _ => tail (queue ++ option_list (execute e))
      end
  | _ => queue
  end.

(** A worker left alive by its call puts its report when it ends. *)
Definition late_put (e : exec_obs) (queue : list ExecResult)
    : list ExecResult :=
  queue ++ option_list (execute e).

End Execution.
End CodeExec.

(** ** The file system *)
Module FS.
Import PyStr Py.

(** The bytes of a regular file: the UTF-8 encoding of a text, or bytes
    that do not decode. *)
Inductive data :=
| Utf8 (text : str)
| Undecodable (raw : list ascii).

(** What a path names: a regular file with its modification stamp, or a
    directory with the names [os.listdir] returns for it, in that order. *)
Inductive entry :=
| File (d : data) (mtime : nat)
| Dir (listing : list str).

Inductive op :=
| OpExists (path : str)
| OpListdir (path : str)
| OpRead (path : str)
| OpCopy2 (src dst : str)
| OpWrite (path : str) (text : str).

(** How a write to a path goes wrong, where it does: the open is refused
    and nothing changes, or the file is opened, hence created or emptied,
    and the write breaks off after [written] characters. *)
Inductive fault :=
| Refused
| Interrupted (written : nat).

(** The file system: what each path names, the time, the operations done
    so far, and how the environment treats a write to each path (no entry:
    the write goes through), which no operation of the program changes.
    Two paths name the same file only when they are equal: there are no
    links. *)
Record world := {
  files : gmap str entry;
  clock : nat;
  log : list op;
  faults : gmap str fault
}.

Definition logged (o : op) (w : world) : world :=
  {| files := files w; clock := clock w; log := log w ++ [o];
     faults := faults w |}.


(** Computations on the file system that may raise. *)
Definition M (A : Type) : Type := world -> result A * world.

Definition ret {A} (a : A) : M A := fun w => (Ok a, w).
Definition raise {A} (e : exn) : M A := fun w => (Raise e, w).
Definition lift {A} (r : result A) : M A := fun w => (r, w).
Definition mbind {A B} (c : M A) (k : A -> M B) : M B :=
  fun w => match c w with
           | (Ok a, w') => k a w'
           | (Raise e, w') => (Raise e, w')
           end.
(** [try: c except Exception: handler] *)
Definition try_except {A} (c : M A) (handler : exn -> M A) : M A :=
  fun w => match c w with
           | (Ok a, w') => (Ok a, w')
           | (Raise e, w') => handler e w'
           end.

(** [os.path.exists] *)
Definition path_exists (p : str) : M bool :=
  fun w => (Ok (bool_decide (is_Some (files w !! p))), logged (OpExists p) w).

(** [os.listdir] *)
Definition listdir (p : str) : M (list str) :=
  fun w =>
    (match files w !! p with
     | Some (Dir names) => Ok names
     | Some (File _ _) => Raise NotADirectoryError
     | None => Raise (FileNotFoundError p)
     end, logged (OpListdir p) w).

(** Universal newlines, as a text file opened for reading applies them:
    CR LF and CR both read as LF. *)
Fixpoint universal_newlines (s : str) : str :=
  match s with
  | [] => []
  | c :: s' =>
      if Ascii.eqb c CR then
        match s' with
        | d :: s'' => if Ascii.eqb d LF then LF :: universal_newlines s''
                      else LF :: universal_newlines s'
        | [] => [LF]
        end
      else c :: universal_newlines s'
  end.

(** [with open(p, 'r', encoding='utf-8') as file: file.read()] *)
Definition read_text (p : str) : M str :=
  fun w =>
    (match files w !! p with
     | Some (File (Utf8 text) _) => Ok (universal_newlines text)
     | Some (File (Undecodable _) _) => Raise UnicodeDecodeError
     | Some (Dir _) => Raise IsADirectoryError
     | None => Raise (FileNotFoundError p)
     end, logged (OpRead p) w).

(** [os.path.basename] *)
Fixpoint basename (p : str) : str :=
  match p with
  | [] => []
  | c :: p' => if contains (py "/") p then basename p' else p
  end.

(** [os.path.join(a, b)] *)
Definition path_join (a b : str) : str :=
  if startswith b (py "/") then b
  else match a with
       | [] => b
       | _ => if startswith (rev a) (py "/") then a ++ b else a ++ py "/" ++ b
       end.

(** The part of a path up to its last slash, [p[:p.rfind('/') + 1]]. *)
Fixpoint dirname_head (p : str) : str :=
  match p with
  | [] => []
  | c :: p' => if contains (py "/") p then c :: dirname_head p' else []
  end.

Fixpoint drop_slashes (s : str) : str :=
  match s with
  | [] => []
  | c :: s' => if Ascii.eqb c "/"%char then drop_slashes s' else s
  end.

(** [os.path.dirname]: the head of the path, without the slashes that end
    it unless it is made of slashes only. *)
Definition dirname (p : str) : str :=
  let head := dirname_head p in
  if forallb (Ascii.eqb "/"%char) head then head
  else rev (drop_slashes (rev head)).

(** The directory in which [p] is looked up: [os.path.dirname p], or the
    current directory for a bare name. *)
Definition parent (p : str) : str :=
  match dirname p with
  | [] => py "."
  | d => d
  end.

(** A directory lists each name once; where a new name appears in the
    listing is the file system's choice, here the end. *)
Definition add_name (name : str) (names : list str) : list str :=
  if bool_decide (name ∈ names) then names else names ++ [name].

(** The first [n] bytes. *)
Definition take_data (n : nat) (d : data) : data :=
  match d with
  | Utf8 text => Utf8 (take n text)
  | Undecodable raw => Undecodable (take n raw)
  end.

(** Opening [p] for writing, as far as the names go: a directory cannot
    be opened; a regular file is there already; a new file needs its
    directory, which then lists it. *)
Definition slot (p : str) (fs : gmap str entry) : result (gmap str entry) :=
  match fs !! p with
  | Some (Dir _) => Raise IsADirectoryError
  | Some (File _ _) => Ok fs
  | None =>
      match fs !! parent p with
      | Some (Dir names) =>
          Ok (<[parent p := Dir (add_name (basename p) names)]> fs)
      | Some (File _ _) => Raise NotADirectoryError
      | None => Raise (FileNotFoundError p)
      end
  end.

(** Opening [p] for writing and writing [d] to it.  A refused open changes
    nothing.  Once the file is open it is new or empty, and a write that
    breaks off leaves the bytes written so far.  [stamp] is the
    modification stamp set after the write, if one is set. *)
Definition store (p : str) (d : data) (stamp : option nat) : M unit :=
  fun w =>
    match slot p (files w) with
    | Raise e => (Raise e, w)
    | Ok fs =>
        match faults w !! p with
        | Some Refused => (Raise PermissionError, w)
        | Some (Interrupted written) =>
            (Raise OSError,
             {| files := <[p := File (take_data written d) (clock w)]> fs;
                clock := S (clock w); log := log w; faults := faults w |})
        | None =>
            (Ok tt,
             match stamp with
             | Some m => {| files := <[p := File d m]> fs;
                            clock := clock w; log := log w;
                            faults := faults w |}
             | None => {| files := <[p := File d (clock w)]> fs;
                          clock := S (clock w); log := log w;
                          faults := faults w |}
             end)
        end
    end.

(** [shutil.copy2(src, dst)]: a destination that is a directory receives
    the copy under the source's base name; copying a file onto itself is
    refused before anything is opened; the source is opened first; the
    bytes and, once they are written, the modification stamp are those of
    the source. *)
Definition copy2 (src dst : str) : M unit :=
  fun w =>
    let w' := logged (OpCopy2 src dst) w in
    let dst' := match files w !! dst with
                | Some (Dir _) => path_join dst (basename src)
                | _ => dst
                end in
    match files w !! src with
    | None => (Raise (FileNotFoundError src), w')
    | Some e =>
        if bool_decide (src = dst') then (Raise SameFileError, w')
        else match e with
             | Dir _ => (Raise IsADirectoryError, w')
             | File d m => store dst' d (Some m) w'
             end
    end.

(** [with open(p, 'w', encoding='utf-8') as f: f.write(text)] *)
Definition write_text (p : str) (text : str) : M unit :=
  fun w => store p (Utf8 text) None (logged (OpWrite p text) w).

End FS.

Notation "'let*' x ':=' c 'in' k" := (FS.mbind c (fun x => k))
  (at level 10, x pattern, c at level 100, k at level 200).

(** ** [src/Snippet_maching.py]: class [SnippetMatcher] *)
Module SnippetMatcher.
Import PyStr Py PyAst FS.

(** [a / b] on two lengths. *)
Definition py_div (a b : nat) : result Q :=
  match b with
  | 0 => Raise ZeroDivisionError
  | S _ => Ok (Z.of_nat a # Pos.of_nat b)
  end.

(** [first[0]] of a list of lines. *)
Definition first_of (lines : list str) : result str :=
  match lines with
  | [] => Raise IndexError
  | l :: _ => Ok l
  end.

(** The loop of [_first_line_match] over the target lines. *)
Fixpoint first_line_scan (first_line : str) (target_lines : list str) : Q :=
  match target_lines with
  | [] => 0%Q
  | line :: rest =>
      if bool_decide (strip line = first_line) then 1%Q
      else if contains first_line (strip line) then (8 # 10)%Q
      else first_line_scan first_line rest
  end.

(** [SnippetMatcher._first_line_match] *)
Definition _first_line_match (target_code first_line : str) : Q :=
  first_line_scan first_line (splitlines target_code).

(** [last_lines[j].strip() in target_lines[i + j].strip()] *)
Definition line_in (p : str * str) : bool := contains (strip p.1) (strip p.2).

(** The loop of [_end_line_match] over the window offsets. *)
Fixpoint end_line_scan (last_lines target_lines : list str)
    (offsets : list nat) : Q :=
  match offsets with
  | [] => 0%Q
  | i :: rest =>
      let window := zip last_lines (drop i target_lines) in
      if forallb line_in window then 1%Q
      else if existsb line_in window then (8 # 10)%Q
      else end_line_scan last_lines target_lines rest
  end.

(** [SnippetMatcher._end_line_match] *)
Definition _end_line_match (target_code : str) (last_lines : list str) : Q :=
  let target_lines := splitlines target_code in
  end_line_scan last_lines target_lines
    (seq 0 (length target_lines + 1 - length last_lines)).

(** [set(s.split())] *)
Definition tokens (s : str) : gset str := list_to_set (split s).

(** [SnippetMatcher._string_similarity] *)
Definition _string_similarity (target_code snippet : str) : result Q :=
  if contains snippet target_code then Ok 1%Q
  else py_div (size (tokens snippet ∩ tokens target_code))
              (size (tokens snippet)).

(** [try: body except Exception: return 0.0] *)
Definition or_zero (body : result Q) : Q :=
  match body with
  | Ok q => q
  | Raise _ => 0%Q
  end.

(** [SnippetMatcher._ast_similarity] *)
Definition _ast_similarity (h : Host) (target_code snippet : str) : Q :=
  or_zero
    (bind (ast_parse h target_code) (fun target_ast =>
     bind (ast_parse h snippet) (fun snippet_ast =>
     py_div (length (walk snippet_ast)) (length (walk target_ast))))).

(** [{node.id for node in ast.walk(tree) if isinstance(node, ast.Name)}] *)
Definition name_ids (tree : node) : gset str :=
  list_to_set
    (omap (fun n => match n with Name id _ => Some id | _ => None end)
          (walk tree)).

(** [SnippetMatcher._keyword_match] *)
Definition _keyword_match (h : Host) (target_code snippet : str) : Q :=
  or_zero
    (bind (ast_parse h snippet) (fun snippet_ast =>
     bind (ast_parse h target_code) (fun target_ast =>
     let snippet_keywords := name_ids snippet_ast in
     let target_keywords := name_ids target_ast in
     if bool_decide (size snippet_keywords = 0) then Ok 0%Q
     else py_div (size (snippet_keywords ∩ target_keywords))
                 (size snippet_keywords)))).

(** The dictionary of the five scores. *)
Record Scores := {
  first_line_match : Q;
  string_match : Q;
  ast_similarity : Q;
  keyword_match : Q;
  end_line_match : Q
}.

(** [SnippetMatcher._calculate_matching_scores] *)
Definition _calculate_matching_scores (h : Host) (target_code snippet : str)
    : result Scores :=
  bind (first_of (splitlines snippet)) (fun first =>
  let snippet_first_line := strip first in
  let snippet_last_lines := last_n 3 (splitlines snippet) in
  let fl := _first_line_match target_code snippet_first_line in
  bind (_string_similarity target_code snippet) (fun sm =>
  Ok {| first_line_match := fl;
        string_match := sm;
        ast_similarity := _ast_similarity h target_code snippet;
        keyword_match := _keyword_match h target_code snippet;
        end_line_match := _end_line_match target_code snippet_last_lines |})).

(** The dictionary [scores], in the order of its keys. *)
Definition items (scores : Scores) : list (str * Q) :=
  [(py "first_line_match", first_line_match scores);
   (py "string_match", string_match scores);
   (py "ast_similarity", ast_similarity scores);
   (py "keyword_match", keyword_match scores);
   (py "end_line_match", end_line_match scores)].

(** The dictionary [weights] of [_calculate_confidence_score]. *)
Definition weights : list (str * Q) :=
  [(py "first_line_match", 3 # 10);
   (py "string_match", 2 # 10);
   (py "ast_similarity", 2 # 10);
   (py "keyword_match", 1 # 10);
   (py "end_line_match", 2 # 10)]%Q.

(** [weights.get(key, 0)] *)
Definition weights_get (key : str) : Q :=
  match find (fun kv => bool_decide (kv.1 = key)) weights with
  | Some kv => kv.2
  | None => 0
  end.

(** [sum] of numbers, from 0. *)
Definition py_sum (l : list Q) : Q := fold_left Qplus l 0%Q.

(** [SnippetMatcher._calculate_confidence_score]: the sum runs over the
    keys in the order of the dictionary.  Scores are exact rationals where
    the code has binary floats, which round each product and each partial
    sum to nearest; rounding is monotone and keeps 0 and 1, so a bound by
    0 or by 1 proved here holds of the floats too, an equation need
    not. *)
Definition _calculate_confidence_score (scores : Scores) : Q :=
  py_sum (map (fun kv => kv.2 * weights_get kv.1)%Q (items scores)).

(** [a > b] on scores. *)
Definition Qgtb (a b : Q) : bool := negb (Qle_bool a b).

(** The inner loop of [_find_best_match]: the number of snippet lines
    after the first that occur in the target line facing them. *)
Definition following_matches (snippet_lines after : list str) : nat :=
  length (filter (fun p => line_in p = true) (zip (drop 1 snippet_lines) after)).

(** The outer loop of [_find_best_match] from target line [i] on; [best]
    is [(best_match_score, best_start, best_end)]. *)
Fixpoint best_match_scan (target_code first_line : str)
    (snippet_lines : list str) (i : nat) (rest : list str)
    (best : Q * Z * Z) : Q * Z * Z :=
  match rest with
  | [] => best
  | line :: rest' =>
      let best' :=
        if contains first_line (strip line) then
          let match_score :=
            (inject_Z (Z.of_nat (1 + following_matches snippet_lines rest'))
             + _end_line_match target_code (last_n 3 snippet_lines))%Q in
          if Qgtb match_score best.1.1
          then (match_score, Z.of_nat i + 1, Z.of_nat i + Z.of_nat (length snippet_lines))%Z
          else best
        else best in
      best_match_scan target_code first_line snippet_lines (S i) rest' best'
  end.

(** [SnippetMatcher._find_best_match] *)
Definition _find_best_match (target_code snippet : str) : result (Z * Z) :=
  let lines := splitlines target_code in
  let snippet_lines := splitlines snippet in
  bind (first_of snippet_lines) (fun first =>
  let first_line := strip first in
  let best := best_match_scan target_code first_line snippet_lines 0 lines
                (0%Q, (-1)%Z, (-1)%Z) in
  Ok (best.1.2, best.2)).

(** One entry of the list [check_folder_for_snippet] returns. *)
Record Placement := {
  file_path : str;
  confidence : Q;
  matched_code : str;
  start_line : Z;
  end_line : Z
}.

(** [sorted(placements, key=lambda x: x[1], reverse=True)]: a stable sort
    by decreasing key.  An element is put before the first element whose
    key is not greater than its own. *)
Fixpoint insert_desc (x : Placement) (l : list Placement) : list Placement :=
  match l with
  | [] => [x]
  | y :: ys =>
      if Qgtb (confidence y) (confidence x) then y :: insert_desc x ys
      else x :: l
  end.

Fixpoint sorted_desc (l : list Placement) : list Placement :=
  match l with
  | [] => []
  | x :: xs => insert_desc x (sorted_desc xs)
  end.

(** [f.endswith(suffix)] *)
Definition endswith (s suffix : str) : bool := startswith (rev s) (rev suffix).

(** The body of the [try] for one file: the placement to append, if
    any. *)
Definition scan_file (h : Host) (snippet py_file : str)
    : M (option Placement) :=
  let* target_code := read_text py_file in
  match strip target_code with
  | [] => ret None
  | _ =>
      let* scores := lift (_calculate_matching_scores h target_code snippet) in
      let confidence := _calculate_confidence_score scores in
      if Qgtb confidence (3 # 10)%Q then
        let* m := lift (_find_best_match target_code snippet) in
        let snippet_last_5_lines := join [LF] (last_n 5 (splitlines snippet)) in
        let* m_end := lift (_find_best_match target_code snippet_last_5_lines) in
        let match_start := m.1 in
        let match_end := if (m.2 <? m_end.2)%Z then m_end.2 else m.2 in
        let lines := splitlines target_code in
        let matched_code := join [LF] (slice lines (match_start - 1) match_end) in
        if bool_decide (match_start ≠ (-1)%Z) then
          ret (Some {| file_path := py_file; confidence := confidence;
                       matched_code := matched_code;
                       start_line := match_start; end_line := match_end |})
        else ret None
      else ret None
  end.

(** The loop over [python_files]; an exception raised for a file is
    reported on standard output (not modelled) and the file skipped. *)
Fixpoint scan_files (h : Host) (snippet : str) (python_files : list str)
    (placements : list Placement) : M (list Placement) :=
  match python_files with
  | [] => ret placements
  | py_file :: rest =>
      let* found := try_except (scan_file h snippet py_file) (fun _ => ret None) in
      scan_files h snippet rest (placements ++ option_list found)
  end.

(** [SnippetMatcher.check_folder_for_snippet] *)
Definition check_folder_for_snippet (h : Host) (folder snippet : str)
    : M (list Placement) :=
  let* present := path_exists folder in
  if negb present then raise (ValueError (py "Folder not found: " ++ folder))
  else
    match strip snippet with
    | [] => raise (ValueError (py "Snippet cannot be empty"))
    | _ =>
        match ast_parse h snippet with
        | Raise (SyntaxError msg) =>
            raise (ValueError (py "Invalid Python syntax in snippet: " ++ msg))
        | Raise e => raise e
        | Ok _ =>
            let* names := listdir folder in
            let python_files :=
              map (path_join folder)
                  (filter (fun f => endswith f (py ".py") = true) names) in
            let* placements := scan_files h snippet python_files [] in
            ret (take 2 (sorted_desc placements))
        end
    end.

End SnippetMatcher.

(** ** [src/Snippet_maching.py]: class [SnippetUpdater] *)
Module SnippetUpdater.
Import PyStr Py FS.

(** [SnippetUpdater._get_snippet_indentation] *)
Definition _get_snippet_indentation (snippet : str) : str :=
  match splitlines snippet with
  | [] => []
  | first_line :: _ => leading_ws first_line
  end.

(** The body of the loop of [_adjust_snippet_indentation] for one line. *)
Definition adjust_line (target_indentation snippet_indentation line : str)
    : str :=
  match strip line with
  | [] => line
  | _ =>
      let stripped :=
        if length snippet_indentation <? length line
        then drop (length snippet_indentation) line
        else lstrip line in
      target_indentation ++ stripped
  end.

(** The list [adjusted_lines] at the end of the loop. *)
Definition adjusted_lines (snippet target_indentation snippet_indentation : str)
    : list str :=
  map (adjust_line target_indentation snippet_indentation) (splitlines snippet).

(** [SnippetUpdater._adjust_snippet_indentation] *)
Definition _adjust_snippet_indentation
    (snippet target_indentation snippet_indentation : str) : str :=
  match splitlines snippet with
  | [] => snippet
  | _ => join [LF] (adjusted_lines snippet target_indentation snippet_indentation)
  end.

(** [s.rfind(c)] scanning from index [i], with [found] the last index
    seen so far. *)
Fixpoint rfind_from (c : ascii) (s : str) (i found : Z) : Z :=
  match s with
  | [] => found
  | d :: s' => rfind_from c s' (i + 1)%Z (if Ascii.eqb d c then i else found)
  end.

Definition rfind (c : ascii) (s : str) : Z := rfind_from c s 0%Z (-1)%Z.

(** [os.path.splitext]: the extension starts at the last dot of the last
    path component, unless only dots precede it there. *)
Definition splitext (p : str) : str * str :=
  let sepIndex := rfind "/"%char p in
  let dotIndex := rfind "."%char p in
  if (sepIndex <? dotIndex)%Z then
    if existsb (fun c => negb (Ascii.eqb c "."%char))
               (slice p (sepIndex + 1) dotIndex)
    then (take (Z.to_nat dotIndex) p, drop (Z.to_nat dotIndex) p)
    else (p, [])
  else (p, []).

(** The path of the backup of [file_path]. *)
Definition backup_path_of (file_path : str) : str :=
  (splitext file_path).1 ++ py ".old".

(** [SnippetUpdater.backup_and_write_code] *)
Definition backup_and_write_code (file_path updated_code : str) : M str :=
  let* present := path_exists file_path in
  if negb present then
    raise (FileNotFoundError
             (py "The file " ++ file_path ++ py " does not exist."))
  else
    let backup_path := backup_path_of file_path in
    let* _ := copy2 file_path backup_path in
    let* _ := write_text file_path updated_code in
    ret backup_path.

(** [SnippetUpdater._get_block_indentation] *)
Definition _get_block_indentation (all_lines : list str) (start_line : Z)
    : result str :=
  if (start_line - 1 <? Z.of_nat (length all_lines))%Z then
    bind (index all_lines (start_line - 1)) (fun first_line =>
    Ok (leading_ws first_line))
  else Ok [].

(** The list [updated_lines] of [calculate_updated_code]. *)
Definition updated_lines (existing_code snippet : str) (start_line end_line : Z)
    : result (list str) :=
  let lines := splitlines existing_code in
  bind (_get_block_indentation lines start_line) (fun target_indentation =>
  let snippet_indentation := _get_snippet_indentation snippet in
  let adjusted_snippet :=
    _adjust_snippet_indentation snippet target_indentation snippet_indentation in
  Ok (slice_to lines (start_line - 1) ++ splitlines adjusted_snippet
      ++ slice_from lines end_line)).

(** [SnippetUpdater.calculate_updated_code] *)
Definition calculate_updated_code (existing_code snippet : str)
    (start_line end_line : Z) : result str :=
  bind (updated_lines existing_code snippet start_line end_line)
       (fun lines => Ok (join [LF] lines)).

End SnippetUpdater.

(** ** [src/main.py] *)
Module Main.
Import PyStr Py FS.

(** The class [\w] of the pattern: letters, digits and the underscore,
    among the code points below 256. *)
Definition is_word (c : ascii) : bool :=
  let n := N_of_ascii c in
  ((48 <=? n) && (n <=? 57) || (65 <=? n) && (n <=? 90) || (n =? 95)
   || (97 <=? n) && (n <=? 122)
   || (n =? 170) || (n =? 178) || (n =? 179) || (n =? 181) || (n =? 185)
   || (n =? 186) || (188 <=? n) && (n <=? 190)
   || (192 <=? n) && (n <=? 214) || (216 <=? n) && (n <=? 246)
   || (248 <=? n))%N.

(** The three backticks of the pattern. *)
Definition fence : str := py "```".

(** The first group, a greedy run of [\w]: the longest run of word
    characters at the start of [s], and what follows it. *)
Fixpoint span_word (s : str) : str * str :=
  match s with
  | [] => ([], [])
  | c :: s' =>
      if is_word c then let (w, r) := span_word s' in (c :: w, r)
      else ([], s)
  end.

(** The second group, a lazy run of any character (the pattern is used
    with [re.DOTALL]), followed by the fence: the text up to the first
    fence, and what follows that fence. *)
Fixpoint until_fence (s : str) : option (str * str) :=
  if startswith s fence then Some ([], drop 3 s)
  else match s with
       | [] => None
       | c :: s' =>
           match until_fence s' with
           | Some (code, rest) => Some (c :: code, rest)
           | None => None
           end
       end.

(** A match of the whole pattern at the start of [s]: the two groups and
    what follows the match. *)
Definition match_here (s : str) : option (str * str * str) :=
  if startswith s fence then
    let (lang, r) := span_word (drop 3 s) in
    match r with
    | c :: r' =>
        if Ascii.eqb c LF then
          match until_fence r' with
          | Some (code, rest) => Some (lang, code, rest)
          | None => None
          end
        else None
    | [] => None
    end
  else None.

(** [re.findall(pattern, content, re.DOTALL)]: the matches from left to
    right, without overlap; [skip] counts the characters of the last
    match still to pass. *)
Fixpoint findall_from (s : str) (skip : nat) : list (str * str) :=
  match s with
  | [] => []
  | _ :: s' =>
      match skip with
      | S k => findall_from s' k
      | 0 =>
          match match_here s with
          | Some (lang, code, rest) =>
              (lang, code) :: findall_from s' (length s' - length rest)
          | None => findall_from s' 0
          end
      end
  end.

(** [extract_code_blocks] *)
Definition extract_code_blocks (content : str) : list (str * str) :=
  map (fun m => (match m.1 with [] => py "python" | _ => m.1 end, strip m.2))
      (findall_from content 0).

(** [[tag.strip() for tag in text.split(",") if tag.strip()]], the tags
    of the three save buttons. *)
Definition tags_of (text : str) : list str :=
  map strip (filter (fun tag => strip tag <> []) (split_on ","%char text)).


End Main.

(** ** Concrete programs and hosts *)
Module Cases.
Import PyStr Py PyAst FS.

(** A parser given by the finite table of the texts it accepts, each
    with the tree [ast.parse] builds for it; any other text is a syntax
    error. *)
Fixpoint parse_in (table : list (str * node)) (code : str) : result node :=
  match table with
  | [] => Raise (SyntaxError (py "invalid syntax"))
  | (c, t) :: rest => if bool_decide (c = code) then Ok t else parse_in rest code
  end.

Definition LoadCtx : node := Other (py "Load") [].
Definition ModuleNode (body : list node) : node := Other (py "Module") body.
Definition Expr (value : node) : node := Other (py "Expr") [value].
Definition plain (name : string) : alias :=
  {| alias_name := py name; alias_asname := None |}.

(** [from . import x] then [import os] *)
Definition code_relative_then_os : str :=
  py "from . import x" ++ [LF] ++ py "import os".
Definition tree_relative_then_os : node :=
  ModuleNode [ImportFrom None [plain "x"] 1; Import [plain "os"]].

(** [import os] then [from . import x] *)
Definition code_os_then_relative : str :=
  py "import os" ++ [LF] ++ py "from . import x".
Definition tree_os_then_relative : node :=
  ModuleNode [Import [plain "os"]; ImportFrom None [plain "x"] 1].

(** [from . import x] *)
Definition code_relative : str := py "from . import x".
Definition tree_relative : node := ModuleNode [ImportFrom None [plain "x"] 1].

(** [while True: pass] *)
Definition code_loop : str := py "while True: pass".
Definition tree_loop : node :=
  ModuleNode [Other (py "While") [Other (py "Constant") []; Other (py "Pass") []]].

(** [sum(range(10**8))] *)
Definition code_slow : str := py "sum(range(10**8))".
Definition tree_slow : node :=
  ModuleNode [Expr (Call (Name (py "sum") LoadCtx)
                      [Call (Name (py "range") LoadCtx)
                         [Other (py "BinOp")
                            [Other (py "Constant") []; Other (py "Pow") [];
                             Other (py "Constant") []]] []] [])].

(** [x] *)
Definition code_x : str := py "x".
Definition tree_x : node := ModuleNode [Expr (Name (py "x") LoadCtx)].

(** [x + 1] *)
Definition code_x_plus_1 : str := py "x + 1".
Definition tree_x_plus_1 : node :=
  ModuleNode [Expr (Other (py "BinOp")
                   [Name (py "x") LoadCtx; Other (py "Add") [];
                    Other (py "Constant") []])].

(** [x] then [[x, x, x]] *)
Definition code_x_list : str := py "x" ++ [LF] ++ py "[x, x, x]".
Definition tree_x_list : node :=
  ModuleNode [Expr (Name (py "x") LoadCtx);
           Expr (Other (py "List")
                   [Name (py "x") LoadCtx; Name (py "x") LoadCtx;
                    Name (py "x") LoadCtx; LoadCtx])].

(** A host that parses the texts above; its built-in namespace is given
    by an excerpt that holds none of the identifiers they use. *)
Definition host : Host := {|
  ast_parse := parse_in
    [(code_relative_then_os, tree_relative_then_os);
     (code_os_then_relative, tree_os_then_relative);
     (code_relative, tree_relative);
     (code_loop, tree_loop);
     (code_slow, tree_slow);
     (code_x, tree_x);
     (code_x_plus_1, tree_x_plus_1);
     (code_x_list, tree_x_list)];
  dir_builtins := map py
    ["ArithmeticError"; "Exception"; "SystemExit"; "__import__"; "abs";
     "compile"; "eval"; "exec"; "exit"; "getattr"; "globals"; "input";
     "len"; "locals"; "open"; "print"; "quit"; "setattr"; "vars"]%string
|}.

Definition world0 : world :=
  {| files := ∅; clock := 0; log := []; faults := ∅ |}.

(** The current directory holds the regular file [a.old]. *)
Definition world_old : world := {|
  files := <[ py "." := Dir [py "a.old"] ]>
             {[ py "a.old" := File (Utf8 (py "old")) 0 ]};
  clock := 1; log := []; faults := ∅
|}.

(** The current directory holds the regular file [a.py] and the empty
    directory [a.old]. *)
Definition world_old_dir : world := {|
  files := <[ py "." := Dir [py "a.py"; py "a.old"] ]>
             (<[ py "a.py" := File (Utf8 (py "old")) 0 ]>
                {[ py "a.old" := Dir [] ]});
  clock := 1; log := []; faults := ∅
|}.

(** The current directory holds the regular file [a.py]. *)
Definition world_a : world := {|
  files := <[ py "." := Dir [py "a.py"] ]>
             {[ py "a.py" := File (Utf8 (py "old")) 0 ]};
  clock := 1; log := []; faults := ∅
|}.


(** As [world_a], on a device where a write to [a.py] breaks off before
    the first byte. *)
Definition world_a_full : world := {|
  files := files world_a; clock := 1; log := [];
  faults := {[ py "a.py" := Interrupted 0 ]}
|}.

(** As [world_a], with [a.py] protected against writing. *)
Definition world_a_protected : world := {|
  files := files world_a; clock := 1; log := [];
  faults := {[ py "a.py" := Refused ]}
|}.

(** An indented line followed by a line shorter than the indentation. *)
Definition snippet_dedent : str := py "    a" ++ [LF] ++ py "b".

(** The directory [src] lists four Python files and a text file;
    [b.py] is empty and [c.py] is missing. *)
Definition world_src : world := {|
  files := <[ py "src" := Dir [py "a.py"; py "notes.txt"; py "b.py";
                               py "c.py"; py "d.py"] ]>
           (<[ py "src/a.py" := File (Utf8 code_x) 0 ]>
           (<[ py "src/b.py" := File (Utf8 []) 0 ]>
           (<[ py "src/d.py" := File (Utf8 code_x) 0 ]>
           (<[ py "src/notes.txt" := File (Utf8 code_x) 0 ]> ∅))));
  clock := 1; log := []; faults := ∅
|}.

End Cases.

(** ** Notions used in the statements *)

Import PyStr Py PyAst FS CodeExec SnippetMatcher SnippetUpdater.

(** [u] occurs in [s] as a block of consecutive characters. *)
Definition infix (u s : str) : Prop := ∃ pre post, s = pre ++ u ++ post.

(** Whitespace-only strings. *)
Definition blank (s : str) : Prop := Forall (λ c, isspace c = true) s.

(** Strings without a line boundary. *)
Definition nobreak (u : str) : Prop := Forall (λ c, is_linebreak c = false) u.

(** The state of the search once a line has matched. *)
Definition found (n : nat) (best : Q * Z * Z) : Prop :=
  (1 <= best.1.1)%Q ∧ (1 ≤ best.1.2)%Z ∧ (best.2 = best.1.2 + Z.of_nat n - 1)%Z.

(** An import of a module outside [allowed_modules]. *)
Definition disallowed_import (n : node) : Prop :=
  match n with
  | Import names =>
      ∃ a, a ∈ names ∧ top_module (alias_name a) ∉ allowed_modules
  | ImportFrom (Some m) _ _ => top_module m ∉ allowed_modules
  | _ => False
  end.

(** A from-import without a module name, as in [from . import x]. *)
Definition module_less_import (n : node) : Prop :=
  match n with
  | ImportFrom None _ _ => True
  | _ => False
  end.

(** The dictionary [execute_code] returns for a snippet it refuses. *)
Definition refusal {PyObj} : @ExecResult PyObj :=
  {| success := false; output := [];
     error := py "Code contains unsafe operations or imports";
     execution_time := Some 0%Q; local_vars := None |}.

(** The order of the returned list: no later placement has a greater
    confidence. *)
Definition by_confidence (a b : Placement) : Prop :=
  (confidence b <= confidence a)%Q.

(** The placements whose confidence equals [c]. *)
Definition ties (c : Q) (l : list Placement) : list Placement :=
  List.filter (λ p, Qeq_bool (confidence p) c) l.

(** A placement the scan of a file hands over. *)
Definition kept (p : Placement) : Prop :=
  (3 # 10 < confidence p)%Q ∧ start_line p ≠ (-1)%Z.

(** A node that [_is_safe_code] does not let pass. *)
Definition forbidden (h : Host) (n : node) : Prop :=
  match n with
  | Name id _ => (id ∉ safe_builtins) ∧ (id ∈ dir_builtins h)
  | Import names =>
      ∃ a, a ∈ names ∧ top_module (alias_name a) ∉ allowed_modules
  | ImportFrom (Some m) _ _ => top_module m ∉ allowed_modules
  | ImportFrom None _ _ => True
  | Delete _ => True
  | Call (Name id _) _ _ => id = py "eval" ∨ id = py "exec"
  | Attribute _ attr _ => ∃ r, attr = py "__" ++ r
  | _ => False
  end.

(** What is left to split once the line boundary [c] has been read: a
    line feed that follows a carriage return belongs to the boundary. *)
Definition after_break (c : ascii) (s : str) : str :=
  if Ascii.eqb c CR then
    match s with
    | d :: s' => if Ascii.eqb d LF then s' else s
    | [] => s
    end
  else s.

(** The state of [_find_best_match] before any line has matched. *)
Definition unplaced (best : Q * Z * Z) : Prop :=
  best = (0%Q, (-1)%Z, (-1)%Z).

(** The state of [_find_best_match] placed at a target line that holds
    the stripped first line [first_line]; [n] is the number of lines of
    the snippet. *)
Definition placed (first_line : str) (lines : list str) (n : nat)
    (best : Q * Z * Z) : Prop :=
  ∃ i line, lines !! i = Some line ∧
            contains first_line (strip line) = true ∧
            best.1.2 = (Z.of_nat i + 1)%Z ∧
            best.2 = (Z.of_nat i + Z.of_nat n)%Z ∧
            (1 <= best.1.1)%Q.

(** The operations of [check_folder_for_snippet] on a directory with the
    names [names]: the existence test, the listing, and one read per
    Python file, in the order of the listing. *)
Definition scan_ops (folder : str) (names : list str) : list op :=
  OpExists folder :: OpListdir folder
  :: map OpRead (map (path_join folder)
                     (filter (λ f, endswith f (py ".py") = true) names)).

(** * Properties *)

(** *** Strings *)

Lemma startswith_spec s p : startswith s p = true ↔ ∃ r, s = p ++ r.
Proof.
  revert s. induction p as [|a p IH]; intros s; simpl.
  - split; [intros _; by exists s | done].
  - destruct s as [|b s].
    + split; [discriminate | intros [r Hr]; discriminate].
    + rewrite andb_true_iff, Ascii.eqb_eq, IH. split.
      * intros [-> [r ->]]. eauto.
      * intros [r Hr]. injection Hr as -> ->. eauto.
Qed.

Lemma contains_spec sub s : contains sub s = true ↔ infix sub s.
Proof.
  induction s as [|c s IH].
  - simpl. rewrite orb_false_r, startswith_spec. split.
    + intros [r Hr]. exists [], r. done.
    + intros (pre & post & H). destruct pre; simpl in H.
      * eauto.
      * discriminate.
  - cbn [contains]. rewrite orb_true_iff, startswith_spec, IH. split.
    + intros [[r Hr] | (pre & post & H)].
      * exists [], r. done.
      * exists (c :: pre), post. by rewrite H.
    + intros (pre & post & H). destruct pre as [|d pre]; simpl in H.
      * left. eauto.
      * right. injection H as -> ->. by exists pre, post.
Qed.

Lemma infix_nil s : infix [] s.
Proof. by exists [], s. Qed.

Lemma infix_refl s : infix s s.
Proof. exists [], []. by rewrite app_nil_r. Qed.

Lemma infix_trans u v s : infix u v → infix v s → infix u s.
Proof.
  intros (p1 & q1 & ->) (p2 & q2 & ->).
  exists (p2 ++ p1), (q1 ++ q2). by rewrite <- !app_assoc.
Qed.

Lemma infix_cons u c s : infix u s → infix u (c :: s).
Proof. intros (p & q & ->). by exists (c :: p), q. Qed.

Lemma infix_rev u s : infix u s → infix (rev u) (rev s).
Proof.
  intros (p & q & ->). exists (rev q), (rev p).
  by rewrite !rev_app_distr, <- app_assoc.
Qed.

Lemma lstrip_decomp s : ∃ ws, s = ws ++ lstrip s ∧ blank ws.
Proof.
  induction s as [|c s (ws & Hs & Hws)]; simpl.
  - exists []. split; [done | constructor].
  - destruct (isspace c) eqn:Hc.
    + exists (c :: ws). split; [by rewrite Hs at 1 | by constructor].
    + exists []. split; [done | constructor].
Qed.

Lemma lstrip_head s c r : lstrip s = c :: r → isspace c = false.
Proof.
  induction s as [|d s IH]; simpl; [discriminate|].
  destruct (isspace d) eqn:Hd; [done|]. intros [= -> _]. done.
Qed.

Lemma lstrip_blank s : blank s ↔ lstrip s = [].
Proof.
  induction s as [|c s IH]; simpl.
  - split; [done | constructor].
  - destruct (isspace c) eqn:Hc.
    + rewrite <- IH. split; [by inversion 1 | by constructor].
    + split; [inversion 1; congruence | discriminate].
Qed.

Lemma blank_app s t : blank (s ++ t) ↔ blank s ∧ blank t.
Proof. apply Forall_app. Qed.

Lemma blank_rev s : blank s ↔ blank (rev s).
Proof.
  induction s as [|c s IH]; simpl; [done|].
  rewrite blank_app, <- IH. unfold blank.
  rewrite Forall_cons, Forall_singleton. tauto.
Qed.

Lemma strip_blank s : blank s ↔ strip s = [].
Proof.
  unfold strip, rstrip. rewrite <- lstrip_blank. split.
  - intros H. apply blank_rev in H. apply lstrip_blank in H. rewrite H. constructor.
  - intros H. apply blank_rev.
    destruct (lstrip_decomp (rev s)) as (ws & Hs & Hws).
    rewrite Hs. apply blank_app. split; [done|]. by apply blank_rev.
Qed.

Lemma infix_lstrip u s c u' :
  u = c :: u' → isspace c = false → infix u s → infix u (lstrip s).
Proof.
  intros -> Hc. induction s as [|d s IH]; simpl; [done|].
  destruct (isspace d) eqn:Hd; [|done].
  intros (p & q & H). destruct p as [|e p]; simpl in H.
  - injection H as -> _. congruence.
  - injection H as -> ->. apply IH. by exists p, q.
Qed.

Lemma infix_rstrip u s c u' :
  rev u = c :: u' → isspace c = false → infix u s → infix u (rstrip s).
Proof.
  intros Hu Hc H. unfold rstrip.
  rewrite <- (rev_involutive u). apply infix_rev.
  eapply infix_lstrip; eauto. by apply infix_rev.
Qed.

(** A stripped string is empty, or starts and ends with a character that
    is not whitespace. *)
Lemma strip_ends s :
  strip s = [] ∨
  (∃ c r, strip s = c :: r ∧ isspace c = false) ∧
  (∃ c r, rev (strip s) = c :: r ∧ isspace c = false).
Proof.
  destruct (strip s) as [|c r] eqn:Hs; [by left | right]. split.
  - exists c, r. split; [done|]. eapply lstrip_head. exact Hs.
  - unfold strip in Hs.
    destruct (lstrip_decomp (rstrip s)) as (ws & Hd & Hws).
    rewrite Hs in Hd. unfold rstrip in Hd.
    apply (f_equal (@rev ascii)) in Hd.
    rewrite rev_involutive, rev_app_distr in Hd.
    destruct (rev (c :: r)) as [|e t] eqn:Hr.
    + apply (f_equal (@rev ascii)) in Hr. rewrite rev_involutive in Hr. discriminate.
    + exists e, t. split; [done|]. simpl in Hd.
      eapply lstrip_head. exact Hd.
Qed.

Lemma infix_strip_self s : infix (strip s) s.
Proof.
  unfold strip.
  destruct (lstrip_decomp (rstrip s)) as (ws & Hd & _).
  assert (infix (rstrip s) s) as H1.
  { unfold rstrip. destruct (lstrip_decomp (rev s)) as (ws' & Hd' & _).
    rewrite <- (rev_involutive s) at 2. apply infix_rev.
    exists ws', []. by rewrite app_nil_r. }
  eapply infix_trans; [|exact H1].
  exists ws, []. by rewrite app_nil_r.
Qed.

(** A stripped string that occurs in a line occurs in the stripped
    line. *)
Lemma infix_strip u s : infix (strip u) s → infix (strip u) (strip s).
Proof.
  intros H. destruct (strip_ends u) as [-> | [(c & r & Hc & Hsp) (d & t & Hd & Hsp')]].
  - apply infix_nil.
  - unfold strip at 2. eapply infix_lstrip; eauto.
    eapply infix_rstrip; eauto.
Qed.

Lemma splitlines_nonempty s : s ≠ [] → splitlines s ≠ [].
Proof.
  destruct s as [|c s]; [done|]. intros _. simpl.
  destruct (is_linebreak c); [done|]. by destruct (splitlines s).
Qed.

Lemma splitlines_nil s : splitlines s = [] → s = [].
Proof.
  intros H. destruct s as [|c s]; [done|].
  by destruct (splitlines_nonempty (c :: s)).
Qed.

(** The first line is a prefix of the text and holds no line boundary. *)
Lemma splitlines_first s l ls :
  splitlines s = l :: ls → nobreak l ∧ ∃ r, s = l ++ r.
Proof.
  revert l ls. induction s as [|c s IH]; intros l ls; simpl; [done|].
  destruct (is_linebreak c) eqn:Hc.
  - intros [= <- _]. split; [constructor | by exists (c :: s)].
  - destruct (splitlines s) as [|l' ls'] eqn:Hs.
    + intros [= <- _]. split; [by repeat constructor | by exists s].
    + intros [= <- _]. destruct (IH l' ls' eq_refl) as [Hn [r ->]].
      split; [by constructor | by exists r].
Qed.

(** A text that starts with a block free of line boundaries has a first
    line that starts with it. *)
Lemma splitlines_prefix u q :
  nobreak u → u ≠ [] → ∃ l ls r, splitlines (u ++ q) = l :: ls ∧ l = u ++ r.
Proof.
  induction u as [|c u IH]; [done|]. intros Hn _.
  apply Forall_cons in Hn as [Hc Hn]. simpl. rewrite Hc.
  destruct u as [|d u].
  - simpl. destruct (splitlines q) as [|l ls].
    + by exists [c], [], [].
    + by exists (c :: l), ls, l.
  - destruct (IH Hn) as (l & ls & r & -> & ->); [done|].
    by exists (c :: (d :: u) ++ r), ls, r.
Qed.

Lemma infix_skip u d s c u' :
  u = c :: u' → c ≠ d → infix u (d :: s) → infix u s.
Proof.
  intros -> Hne (p & q & H). destruct p as [|e p]; simpl in H.
  - injection H as -> _. done.
  - injection H as -> ->. by exists p, q.
Qed.

Lemma linebreak_LF : is_linebreak LF = true.
Proof. reflexivity. Qed.

(** A block free of line boundaries that occurs in a text occurs within
    one of its lines. *)
Lemma infix_line_bounded n :
  ∀ T u, length T ≤ n → nobreak u → u ≠ [] → infix u T →
         ∃ l, l ∈ splitlines T ∧ infix u l.
Proof.
  induction n as [|n IH]; intros T u Hlen Hn Hu Hin.
  - destruct T; [|simpl in Hlen; lia].
    destruct Hin as (p & q & H). destruct p, u; simpl in H; done.
  - destruct T as [|c T].
    { destruct Hin as (p & q & H). destruct p, u; simpl in H; done. }
    simpl in Hlen.
    destruct Hin as (p & q & H). destruct p as [|e p]; simpl in H.
    { destruct (splitlines_prefix u q Hn Hu) as (l & ls & r & Hl & ->).
      rewrite H, Hl. exists (u ++ r). split; [left|].
      exists [], r. done. }
    injection H as <- ->.
    assert (infix u (p ++ u ++ q)) as Hin' by (by exists p, q).
    simpl. destruct (is_linebreak c) eqn:Hc.
    + assert (∃ l, l ∈ splitlines (p ++ u ++ q) ∧ infix u l) as Htail.
      { apply IH; [lia | done..]. }
      destruct (Ascii.eqb c CR) eqn:Hcr; [|destruct Htail as (l & ? & ?); exists l; split; [by right | done]].
      destruct (p ++ u ++ q) as [|d T'] eqn:HT.
      { destruct Htail as (l & Hl & _). simpl in Hl. by apply elem_of_nil in Hl. }
      destruct (Ascii.eqb d LF) eqn:Hd; [|destruct Htail as (l & ? & ?); exists l; split; [by right | done]].
      apply Ascii.eqb_eq in Hd as ->.
      destruct u as [|a u']; [done|].
      apply Forall_cons in Hn as Hn'. destruct Hn' as [Ha _].
      assert (infix (a :: u') T') as Hin''.
      { eapply infix_skip; [done| |exact Hin']. intros ->. by rewrite linebreak_LF in Ha. }
      destruct (IH T' (a :: u')) as (l & Hl & Hil); [simpl in Hlen; lia | done..|].
      exists l. split; [by right | done].
    + destruct (IH (p ++ u ++ q) u) as (l & Hl & Hil); [lia | done..|].
      destruct (splitlines (p ++ u ++ q)) as [|l0 ls0]; [by apply elem_of_nil in Hl|].
      apply elem_of_cons in Hl as [-> | Hl].
      * exists (c :: l0). split; [left | by apply infix_cons].
      * exists l. split; [by right | done].
Qed.

Lemma infix_line T u :
  nobreak u → u ≠ [] → infix u T → ∃ l, l ∈ splitlines T ∧ infix u l.
Proof. by apply (infix_line_bounded (length T)). Qed.

Lemma nobreak_infix u l : infix u l → nobreak l → nobreak u.
Proof.
  intros (p & q & ->) H. apply Forall_app in H as [_ H].
  by apply Forall_app in H as [H _].
Qed.

(** *** Scores *)

Lemma first_line_scan_range fl lines :
  (0 <= first_line_scan fl lines <= 1)%Q.
Proof.
  induction lines as [|l lines IH]; simpl.
  - lra.
  - destruct (bool_decide _); [lra|]. destruct (contains _ _); [lra | done].
Qed.

Lemma first_line_scan_found fl lines l :
  l ∈ lines → contains fl (strip l) = true →
  (8 # 10 <= first_line_scan fl lines)%Q.
Proof.
  induction lines as [|l' lines IH]; intros Hl Hc; [by apply elem_of_nil in Hl|].
  simpl. destruct (bool_decide _); [lra|].
  destruct (contains fl (strip l')) eqn:Hc'; [lra|].
  apply elem_of_cons in Hl as [-> | Hl]; [congruence | by apply IH].
Qed.

Lemma end_line_scan_range last_lines target_lines offsets :
  (0 <= end_line_scan last_lines target_lines offsets <= 1)%Q.
Proof.
  induction offsets as [|i offsets IH]; simpl.
  - lra.
  - destruct (forallb _ _); [lra|]. destruct (existsb _ _); [lra | done].
Qed.

Lemma end_line_match_range target_code last_lines :
  (0 <= _end_line_match target_code last_lines <= 1)%Q.
Proof. apply end_line_scan_range. Qed.

Lemma Zpos_of_nat_S n : Z.pos (Pos.of_nat (S n)) = Z.of_nat (S n).
Proof. rewrite <- positive_nat_Z, Nat2Pos.id; done. Qed.

Lemma py_div_range a b q :
  py_div a b = Ok q → (0 <= q)%Q ∧ (a ≤ b → (q <= 1)%Q).
Proof.
  destruct b as [|b]; simpl; [done|]. intros [= <-]. split.
  - unfold Qle. simpl. lia.
  - intros Hab. unfold Qle. cbn [Qnum Qden]. rewrite Zpos_of_nat_S. lia.
Qed.

Lemma py_div_value a b :
  b ≠ 0 → py_div a b = Ok (Z.of_nat a # Pos.of_nat b)%Q.
Proof. by destruct b. Qed.

Lemma or_zero_nonneg r :
  (∀ q, r = Ok q → (0 <= q)%Q) → (0 <= or_zero r)%Q.
Proof. destruct r as [q|e]; simpl; [auto | lra]. Qed.

Lemma ast_similarity_nonneg h target snippet :
  (0 <= _ast_similarity h target snippet)%Q.
Proof.
  unfold _ast_similarity. apply or_zero_nonneg. intros q.
  destruct (ast_parse h target); [|done]. simpl.
  destruct (ast_parse h snippet); [|done]. simpl.
  intros H. by apply py_div_range in H as [H _].
Qed.

(** The ratio of node counts is what [_ast_similarity] returns when both
    texts parse. *)
Lemma ast_similarity_value h target snippet t s :
  ast_parse h target = Ok t → ast_parse h snippet = Ok s →
  _ast_similarity h target snippet
  = (Z.of_nat (length (walk s)) # Pos.of_nat (length (walk t)))%Q.
Proof.
  intros Ht Hs. unfold _ast_similarity. rewrite Ht, Hs. simpl.
  rewrite py_div_value; [done|].
  unfold walk. destruct t; simpl; done.
Qed.

Lemma ast_similarity_le_1 h target snippet :
  (∀ t s, ast_parse h target = Ok t → ast_parse h snippet = Ok s →
          length (walk s) ≤ length (walk t)) →
  (_ast_similarity h target snippet <= 1)%Q.
Proof.
  intros H. unfold _ast_similarity.
  destruct (ast_parse h target) as [t|]; [|simpl; lra]. simpl.
  destruct (ast_parse h snippet) as [s|]; [|simpl; lra]. simpl.
  destruct (py_div _ _) as [q|] eqn:Hq; [|simpl; lra]. simpl.
  apply py_div_range in Hq as [_ Hq]. apply Hq. by apply H.
Qed.

Lemma keyword_match_range h target snippet :
  (0 <= _keyword_match h target snippet <= 1)%Q.
Proof.
  unfold _keyword_match.
  destruct (ast_parse h snippet) as [s|]; [|simpl; lra]. simpl.
  destruct (ast_parse h target) as [t|]; [|simpl; lra]. simpl.
  destruct (bool_decide _); [simpl; lra|].
  destruct (py_div _ _) as [q|] eqn:Hq; [|simpl; lra]. simpl.
  apply py_div_range in Hq as [H0 H1]. split; [done|].
  apply H1. apply subseteq_size, intersection_subseteq_l.
Qed.

Lemma string_similarity_range target snippet q :
  _string_similarity target snippet = Ok q → (0 <= q <= 1)%Q.
Proof.
  unfold _string_similarity. destruct (contains snippet target).
  - intros [= <-]. lra.
  - intros Hq. apply py_div_range in Hq as [H0 H1]. split; [done|].
    apply H1. apply subseteq_size, intersection_subseteq_l.
Qed.

Lemma split_from_nonempty cur s :
  cur ≠ [] ∨ ¬ blank s → split_from cur s ≠ [].
Proof.
  revert cur. induction s as [|c s IH]; intros cur H; simpl.
  - destruct H as [H | H]; [by destruct cur | destruct H; constructor].
  - destruct (isspace c) eqn:Hc.
    + destruct cur; [|done]. apply IH. right.
      destruct H as [H | H]; [done|]. intros Hb. apply H. by constructor.
    + apply IH. by left.
Qed.

Lemma tokens_nonempty s : strip s ≠ [] → size (tokens s) ≠ 0.
Proof.
  intros Hs Hsz. apply size_empty_inv in Hsz.
  assert (split s ≠ []) as Hne.
  { apply split_from_nonempty. right. by rewrite strip_blank. }
  destruct (split s) as [|x l] eqn:Hx; [done|].
  unfold tokens in Hsz. rewrite Hx in Hsz. set_solver.
Qed.

(** A snippet with a character that is not whitespace has all five
    scores. *)
Lemma string_similarity_total target snippet :
  strip snippet ≠ [] → ∃ q, _string_similarity target snippet = Ok q.
Proof.
  intros Hs. unfold _string_similarity. destruct (contains _ _); [eauto|].
  pose proof (tokens_nonempty snippet Hs).
  destruct (size (tokens snippet)) eqn:E; [done|]. simpl. eauto.
Qed.

Lemma strip_nonempty_lines s : strip s ≠ [] → splitlines s ≠ [].
Proof.
  intros H. apply splitlines_nonempty. intros ->. by apply H.
Qed.

(** The confidence, with the weight of each key looked up. *)
Lemma confidence_sum sc :
  _calculate_confidence_score sc
  = (0 + first_line_match sc * (3 # 10)
       + string_match sc * (2 # 10)
       + ast_similarity sc * (2 # 10)
       + keyword_match sc * (1 # 10)
       + end_line_match sc * (2 # 10))%Q.
Proof. reflexivity. Qed.

Lemma confidence_bounds sc :
  (0 <= first_line_match sc <= 1)%Q → (0 <= string_match sc <= 1)%Q →
  (0 <= ast_similarity sc)%Q → (0 <= keyword_match sc <= 1)%Q →
  (0 <= end_line_match sc <= 1)%Q →
  (0 <= _calculate_confidence_score sc)%Q ∧
  (_calculate_confidence_score sc <= (8 # 10) + (2 # 10) * ast_similarity sc)%Q.
Proof. rewrite confidence_sum. intros. split; lra. Qed.

Lemma contains_nil s : contains [] s = true.
Proof. apply contains_spec, infix_nil. Qed.

(** The stripped line occurs in a line exactly when the code's test on
    the stripped target line succeeds. *)
Lemma contains_strip_iff u line :
  contains (strip u) (strip line) = true ↔ infix (strip u) line.
Proof.
  rewrite contains_spec. split.
  - intros H. eapply infix_trans; [exact H | apply infix_strip_self].
  - apply infix_strip.
Qed.

(** The first line of a snippet that occurs verbatim in the target
    occurs, stripped, in a stripped target line. *)
Lemma verbatim_first_line target snippet first rest :
  snippet ≠ [] → infix snippet target → splitlines snippet = first :: rest →
  ∃ l, l ∈ splitlines target ∧ contains (strip first) (strip l) = true.
Proof.
  intros Hne Hin Hfirst.
  destruct (splitlines_first _ _ _ Hfirst) as [Hnb [r Hr]].
  assert (infix (strip first) target) as Hu.
  { eapply infix_trans; [apply infix_strip_self|].
    eapply infix_trans; [|exact Hin]. exists [], r. by rewrite Hr. }
  destruct (strip first) as [|c u] eqn:Hs.
  - destruct (splitlines target) as [|l ls] eqn:Ht.
    + apply splitlines_nil in Ht. subst target.
      destruct Hin as (p & q & H). destruct p, snippet; done.
    + exists l. split; [left | apply contains_nil].
  - destruct (infix_line target (c :: u)) as (l & Hl & Hil); [|done|done|].
    { eapply nobreak_infix; [|exact Hnb]. rewrite <- Hs. apply infix_strip_self. }
    exists l. split; [done|]. rewrite <- Hs. apply contains_strip_iff. by rewrite Hs.
Qed.

(** C8: a snippet that occurs verbatim in the target has string
    similarity 1.0 and a confidence above the threshold 0.3. *)
Theorem verbatim_snippet_confidence h target snippet :
  snippet ≠ [] → infix snippet target →
  _string_similarity target snippet = Ok 1%Q ∧
  ∃ sc, _calculate_matching_scores h target snippet = Ok sc ∧
        string_match sc = 1%Q ∧
        (3 # 10 < _calculate_confidence_score sc)%Q.
Proof.
  intros Hne Hin.
  assert (_string_similarity target snippet = Ok 1%Q) as Hsim.
  { unfold _string_similarity. apply contains_spec in Hin. by rewrite Hin. }
  split; [done|].
  unfold _calculate_matching_scores.
  destruct (splitlines snippet) as [|first rest] eqn:Hlines.
  { by apply splitlines_nil in Hlines. }
  simpl. rewrite Hsim. simpl. eexists. split; [done|]. split; [done|].
  destruct (verbatim_first_line target snippet first rest) as (l & Hl & Hc); [done..|].
  pose proof (first_line_scan_found _ _ _ Hl Hc) as Hfl.
  pose proof (ast_similarity_nonneg h target snippet).
  pose proof (keyword_match_range h target snippet).
  pose proof (end_line_match_range target (last_n 3 (first :: rest))).
  rewrite confidence_sum. unfold _first_line_match. simpl. lra.
Qed.

Lemma verbatim_snippet_confidence_witness :
  _string_similarity (py "y = x") (py "x") = Ok 1%Q ∧
  ∃ sc, _calculate_matching_scores Cases.host (py "y = x") (py "x") = Ok sc ∧
        string_match sc = 1%Q ∧
        (3 # 10 < _calculate_confidence_score sc)%Q.
Proof.
  apply (verbatim_snippet_confidence Cases.host (py "y = x") (py "x")).
  - discriminate.
  - exists (py "y = "), []. reflexivity.
Defined.

(** *** Placement *)

Lemma Qgtb_true a b : Qgtb a b = true ↔ (b < a)%Q.
Proof.
  unfold Qgtb. rewrite negb_true_iff. split.
  - intros H. apply Qnot_le_lt. intros Hle. apply Qle_bool_iff in Hle. congruence.
  - intros H. destruct (Qle_bool a b) eqn:E; [|done].
    apply Qle_bool_iff in E. lra.
Qed.

Lemma match_score_ge_1 k e : (0 <= e)%Q → (1 <= inject_Z (Z.of_nat (S k)) + e)%Q.
Proof.
  intros He. assert (1 <= inject_Z (Z.of_nat (S k)))%Q.
  { unfold Qle, inject_Z. cbn [Qnum Qden]. lia. }
  lra.
Qed.

Lemma best_match_scan_found target fl sl i rest best :
  found (length sl) best →
  found (length sl) (best_match_scan target fl sl i rest best).
Proof.
  revert i best. induction rest as [|line rest IH]; intros i best Hb; simpl; [done|].
  apply IH. destruct (contains fl (strip line)); [|done].
  destruct (Qgtb _ _); [|done].
  split; [|split]; simpl; [|lia..].
  apply match_score_ge_1, end_line_match_range.
Qed.

Lemma best_match_scan_none target fl sl i rest best :
  (∀ l, l ∈ rest → contains fl (strip l) = false) →
  best_match_scan target fl sl i rest best = best.
Proof.
  revert i best. induction rest as [|line rest IH]; intros i best H; simpl; [done|].
  rewrite (H line) by left. apply IH. intros l Hl. apply H. by right.
Qed.

Lemma best_match_scan_some target fl sl i rest best l :
  best.1.1 = 0%Q ∨ found (length sl) best →
  l ∈ rest → contains fl (strip l) = true →
  found (length sl) (best_match_scan target fl sl i rest best).
Proof.
  revert i best. induction rest as [|line rest IH]; intros i best Hb Hl Hc;
    [by apply elem_of_nil in Hl|].
  simpl. destruct (contains fl (strip line)) eqn:Hline.
  - apply best_match_scan_found.
    pose proof (match_score_ge_1 (following_matches sl rest) _
                  (proj1 (end_line_match_range target (last_n 3 sl)))) as Hge.
    destruct (Qgtb _ _) eqn:Hgt.
    + split; [|split]; simpl; [done | lia..].
    + destruct Hb as [H0 | Hb]; [|done].
      rewrite H0 in Hgt. apply not_true_iff_false in Hgt.
      destruct Hgt. apply Qgtb_true. simpl. lra.
  - apply elem_of_cons in Hl as [-> | Hl]; [congruence|]. by eapply IH.
Qed.

(** C6: when the stripped first line of the snippet occurs in a target
    line, [_find_best_match] returns bounds with [start <= end]; when it
    occurs in none, it returns [(-1, -1)]. *)
Theorem find_best_match_bounds target snippet first rest :
  splitlines snippet = first :: rest →
  ((∃ line, line ∈ splitlines target ∧ infix (strip first) line) →
   ∃ s e, _find_best_match target snippet = Ok (s, e) ∧ (1 ≤ s ≤ e)%Z) ∧
  ((∀ line, line ∈ splitlines target → ¬ infix (strip first) line) →
   _find_best_match target snippet = Ok ((-1)%Z, (-1)%Z)).
Proof.
  intros Hlines. unfold _find_best_match. rewrite Hlines. simpl. split.
  - intros (line & Hl & Hin).
    apply contains_strip_iff in Hin.
    pose proof (best_match_scan_some target (strip first) (first :: rest) 0
                  (splitlines target) (0%Q, (-1)%Z, (-1)%Z) line
                  (or_introl eq_refl) Hl Hin) as (_ & H1 & H2).
    eexists _, _. split; [done|]. simpl in H2. lia.
  - intros Hnone. rewrite best_match_scan_none; [done|].
    intros l Hl. destruct (contains _ _) eqn:Hc; [|done].
    apply contains_strip_iff in Hc. by destruct (Hnone l Hl).
Qed.

Lemma find_best_match_bounds_witness :
  (∃ s e, _find_best_match (py "x") (py "x") = Ok (s, e) ∧ (1 ≤ s ≤ e)%Z) ∧
  _find_best_match (py "y") (py "x") = Ok ((-1)%Z, (-1)%Z).
Proof.
  split.
  - apply (proj1 (find_best_match_bounds (py "x") (py "x") (py "x") [] eq_refl)).
    exists (py "x"). split; [left | exists [], []; reflexivity].
  - apply (proj2 (find_best_match_bounds (py "y") (py "x") (py "x") [] eq_refl)).
    intros line Hl Hin. apply list_elem_of_singleton in Hl. subst line.
    apply contains_spec in Hin. vm_compute in Hin. discriminate.
Defined.

(** *** Bounds of the scores *)

(** C4 fails at target [x] and snippet [x + 1]: the snippet has 7 nodes,
    the target 4, and the syntax-tree score is 7/4.  At snippet [x]
    followed by [[x, x, x]] the confidence itself exceeds 1. *)
Lemma ast_ratio_exceeds_one :
  (∃ sc, _calculate_matching_scores Cases.host Cases.code_x Cases.code_x_plus_1
         = Ok sc ∧
         (ast_similarity sc == 7 # 4)%Q ∧ ¬ (ast_similarity sc <= 1)%Q) ∧
  (∃ sc, _calculate_matching_scores Cases.host Cases.code_x Cases.code_x_list
         = Ok sc ∧
         (ast_similarity sc == 13 # 4)%Q ∧
         ¬ (_calculate_confidence_score sc <= 1)%Q).
Proof.
  split; eexists; (split; [vm_compute; reflexivity|]); split;
    vm_compute; congruence.
Qed.

(** C4, as the code has it: every score but the syntax-tree ratio lies in
    [0, 1]; the ratio is non-negative, and at most 1 when the snippet has
    no more nodes than the target; the weights of the dictionary add up
    to 1, and the confidence is non-negative, and at most 1 when the
    ratio is. *)
Theorem scores_bounds h target snippet :
  strip snippet ≠ [] →
  ∃ sc, _calculate_matching_scores h target snippet = Ok sc ∧
    (0 <= first_line_match sc <= 1)%Q ∧
    (0 <= string_match sc <= 1)%Q ∧
    (0 <= ast_similarity sc)%Q ∧
    ((∀ t s, ast_parse h target = Ok t → ast_parse h snippet = Ok s →
             length (walk s) ≤ length (walk t)) →
     (ast_similarity sc <= 1)%Q) ∧
    (0 <= keyword_match sc <= 1)%Q ∧
    (0 <= end_line_match sc <= 1)%Q ∧
    (py_sum (map snd weights) == 1)%Q ∧
    (0 <= _calculate_confidence_score sc)%Q ∧
    ((ast_similarity sc <= 1)%Q → (_calculate_confidence_score sc <= 1)%Q).
Proof.
  intros Hs. unfold _calculate_matching_scores.
  destruct (splitlines snippet) as [|first rest] eqn:Hlines.
  { by destruct (strip_nonempty_lines snippet Hs). }
  simpl. destruct (string_similarity_total target snippet Hs) as [q Hq].
  rewrite Hq. simpl. eexists. split; [done|]. cbn [first_line_match string_match
    ast_similarity keyword_match end_line_match].
  pose proof (first_line_scan_range (strip first) (splitlines target)) as Hfl.
  pose proof (string_similarity_range _ _ _ Hq) as Hsm.
  pose proof (ast_similarity_nonneg h target snippet) as Hast.
  pose proof (keyword_match_range h target snippet) as Hkw.
  pose proof (end_line_match_range target (last_n 3 (first :: rest))) as Hel.
  split; [done|]. split; [done|]. split; [done|].
  split; [apply ast_similarity_le_1|].
  split; [done|]. split; [done|]. split; [reflexivity|].
  rewrite confidence_sum. unfold _first_line_match in *. simpl.
  split; [lra|]. intros. lra.
Qed.

Lemma scores_bounds_witness :
  ∃ sc, _calculate_matching_scores Cases.host Cases.code_x Cases.code_x = Ok sc ∧
    (0 <= first_line_match sc <= 1)%Q ∧
    (0 <= string_match sc <= 1)%Q ∧
    (0 <= ast_similarity sc)%Q ∧
    ((∀ t s, ast_parse Cases.host Cases.code_x = Ok t →
             ast_parse Cases.host Cases.code_x = Ok s →
             length (walk s) ≤ length (walk t)) →
     (ast_similarity sc <= 1)%Q) ∧
    (0 <= keyword_match sc <= 1)%Q ∧
    (0 <= end_line_match sc <= 1)%Q ∧
    (py_sum (map snd weights) == 1)%Q ∧
    (0 <= _calculate_confidence_score sc)%Q ∧
    ((ast_similarity sc <= 1)%Q → (_calculate_confidence_score sc <= 1)%Q).
Proof.
  apply (scores_bounds Cases.host Cases.code_x Cases.code_x).
  vm_compute. discriminate.
Defined.

(** *** Syntax trees *)

Lemma list_sum_alias (names : list alias) :
  list_sum (map node_count (map AliasNode names)) = length names.
Proof. induction names as [|a names IH]; simpl; [done | by rewrite IH]. Qed.

Lemma node_count_children n :
  node_count n = S (list_sum (map node_count (iter_child_nodes n))).
Proof.
  destruct n; simpl; rewrite ?list_sum_alias, ?map_app, ?list_sum_app; lia.
Qed.

Lemma node_of_inv n t :
  node_of n t → n = t ∨ ∃ c, c ∈ iter_child_nodes t ∧ node_of n c.
Proof. destruct 1; eauto. Qed.

(** With fuel for every node in the queue, the walk yields every node of
    every tree in the queue. *)
Lemma walk_queue_complete fuel :
  ∀ todo, list_sum (map node_count todo) ≤ fuel →
          ∀ t n, t ∈ todo → node_of n t → n ∈ walk_queue fuel todo.
Proof.
  induction fuel as [|fuel IH]; intros todo Hfuel t n Ht Hn.
  - destruct todo as [|m rest]; [by apply elem_of_nil in Ht|].
    simpl in Hfuel. rewrite (node_count_children m) in Hfuel. lia.
  - destruct todo as [|m rest]; [by apply elem_of_nil in Ht|].
    simpl in Hfuel. rewrite (node_count_children m) in Hfuel. simpl.
    assert (list_sum (map node_count (rest ++ iter_child_nodes m)) ≤ fuel) as Hf.
    { rewrite map_app, list_sum_app. lia. }
    apply elem_of_cons in Ht as [-> | Ht].
    + apply node_of_inv in Hn as [-> | (c & Hc & Hn)]; [left|].
      right. apply (IH _ Hf c); [|done]. apply elem_of_app. by right.
    + right. apply (IH _ Hf t); [|done]. apply elem_of_app. by left.
Qed.

Lemma walk_queue_sound fuel :
  ∀ todo n, n ∈ walk_queue fuel todo → ∃ t, t ∈ todo ∧ node_of n t.
Proof.
  induction fuel as [|fuel IH]; intros todo n Hn; simpl in Hn;
    [by apply elem_of_nil in Hn|].
  destruct todo as [|m rest]; [by apply elem_of_nil in Hn|].
  apply elem_of_cons in Hn as [-> | Hn].
  - exists m. split; [left | constructor].
  - apply IH in Hn as (t & Ht & Hn). apply elem_of_app in Ht as [Ht | Ht].
    + exists t. split; [by right | done].
    + exists m. split; [left | by econstructor].
Qed.

Lemma walk_sound tree n : n ∈ walk tree → node_of n tree.
Proof.
  intros H. apply walk_queue_sound in H as (t & Ht & Hn).
  by apply list_elem_of_singleton in Ht as ->.
Qed.

Lemma walk_complete tree n : node_of n tree → n ∈ walk tree.
Proof.
  intros H. apply (walk_queue_complete _ [tree]) with (t := tree); [|left|done].
  simpl. lia.
Qed.

(** *** Vetting *)

(** The verdict is that of the first node whose check does not let the
    loop go on. *)
Lemma check_nodes_first h pre n post :
  Forall (λ m, check_node h m = Ok true) pre →
  check_node h n ≠ Ok true →
  check_nodes h (pre ++ n :: post) = check_node h n.
Proof.
  intros Hpre Hn. induction Hpre as [|m pre Hm _ IH]; simpl.
  - destruct (check_node h n) as [[]|]; done.
  - by rewrite Hm.
Qed.

Lemma check_nodes_rejects h nodes n :
  n ∈ nodes → check_node h n = Ok false →
  (∀ m, m ∈ nodes → ∀ e, check_node h m ≠ Raise e) →
  check_nodes h nodes = Ok false.
Proof.
  induction nodes as [|m nodes IH]; intros Hn Hrej Hraise;
    [by apply elem_of_nil in Hn|].
  simpl. destruct (check_node h m) as [[]|e] eqn:Hm; [|done|].
  - apply elem_of_cons in Hn as [-> | Hn]; [congruence|].
    apply IH; [done..|]. intros m' Hm'. apply Hraise. by right.
  - by destruct (Hraise m (list_elem_of_here _ _) e).
Qed.

Lemma check_node_disallowed h n : disallowed_import n → check_node h n = Ok false.
Proof.
  destruct n as [| names | [m|] | | | | |]; simpl; try done.
  - intros (a & Ha & Hout).
    destruct (forallb _ names) eqn:Hall; [|done].
    rewrite forallb_forall in Hall.
    apply list_elem_of_In in Ha. apply Hall in Ha.
    by apply bool_decide_eq_true in Ha.
  - intros Hout. by rewrite bool_decide_eq_false_2.
Qed.

Lemma check_node_raises h n e :
  check_node h n = Raise e → module_less_import n ∧ e = AttributeError.
Proof.
  destruct n as [| | [m|] | | f | | |]; simpl;
    repeat match goal with
           | |- context [if ?b then _ else _] => destruct b
           | |- context [match ?f with _ => _ end] => destruct f
           end; try done.
  by intros [= <-].
Qed.

(** Where no from-import lacks its module name, a snippet with a
    disallowed import is refused without a thread being started. *)
Lemma disallowed_import_refused {PyObj} h code tree n timeout queue w :
  ast_parse h code = Ok tree →
  node_of n tree → disallowed_import n →
  (∀ m, node_of m tree → ¬ module_less_import m) →
  @execute_code PyObj h timeout queue w code
  = (Returned {| success := false; output := [];
                 error := py "Code contains unsafe operations or imports";
                 execution_time := Some 0%Q; local_vars := None |}, []).
Proof.
  intros Hparse Hn Hdis Hnone. unfold execute_code, _is_safe_code.
  rewrite Hparse.
  rewrite (check_nodes_rejects h (walk tree) n); [done| | |].
  - by apply walk_complete.
  - by apply check_node_disallowed.
  - intros m Hm e He. apply check_node_raises in He as [He _].
    by apply (Hnone m (walk_sound _ _ Hm)).
Qed.

(** C1, at [from . import x] followed by [import os]: the snippet
    imports [os], which is not an allowed module, and [execute_code]
    raises [AttributeError] where a refusal with [success = False] is
    due. *)
Theorem disallowed_import_after_relative_import PyObj timeout queue w :
  ast_parse Cases.host Cases.code_relative_then_os
  = Ok Cases.tree_relative_then_os ∧
  (∃ n, node_of n Cases.tree_relative_then_os ∧ disallowed_import n) ∧
  _is_safe_code Cases.host Cases.code_relative_then_os = Raise AttributeError ∧
  @execute_code PyObj Cases.host timeout queue w Cases.code_relative_then_os
  = (Raised AttributeError, []).
Proof.
  split; [reflexivity|]. split.
  - exists (Import [Cases.plain "os"]). split.
    + eapply node_of_child; [|constructor]. simpl. right. left.
    + exists (Cases.plain "os"). split; [left|].
      unfold not. apply (bool_decide_eq_false_1 (_ ∈ _)). vm_compute. reflexivity.
  - assert (_is_safe_code Cases.host Cases.code_relative_then_os
            = Raise AttributeError) as H by (vm_compute; reflexivity).
    split; [done|]. unfold execute_code. by rewrite H.
Qed.

(** C10 fails at [import os] followed by [from . import x]: the walk
    meets the import of [os] first, [_is_safe_code] returns [False] and
    [execute_code] returns the refusal. *)
Lemma relative_import_after_rejected_import :
  ast_parse Cases.host Cases.code_os_then_relative
  = Ok Cases.tree_os_then_relative ∧
  (∃ n, node_of n Cases.tree_os_then_relative ∧ module_less_import n) ∧
  _is_safe_code Cases.host Cases.code_os_then_relative = Ok false ∧
  ∀ timeout queue w,
    @execute_code unit Cases.host timeout queue w Cases.code_os_then_relative
    = (Returned refusal, []).
Proof.
  split; [reflexivity|]. split.
  - exists (ImportFrom None [Cases.plain "x"] 1). split; [|done].
    eapply node_of_child; [|constructor]. simpl. right. left.
  - assert (_is_safe_code Cases.host Cases.code_os_then_relative = Ok false)
      as H by (vm_compute; reflexivity).
    split; [done|]. intros. unfold execute_code. by rewrite H.
Qed.

(** C10, as the code has it: when the walk reaches a from-import without
    module name and every node before it passed the checks,
    [_is_safe_code] raises [AttributeError] and [execute_code] lets it
    through, without a worker being started. *)
Theorem module_less_import_raises {PyObj} h code tree pre names level post
    timeout queue w :
  ast_parse h code = Ok tree →
  walk tree = pre ++ ImportFrom None names level :: post →
  Forall (λ m, check_node h m = Ok true) pre →
  _is_safe_code h code = Raise AttributeError ∧
  @execute_code PyObj h timeout queue w code = (Raised AttributeError, []).
Proof.
  intros Hparse Hwalk Hpre.
  assert (_is_safe_code h code = Raise AttributeError) as H.
  { unfold _is_safe_code. rewrite Hparse, Hwalk.
    by rewrite check_nodes_first. }
  split; [done|]. unfold execute_code. by rewrite H.
Qed.

Lemma module_less_import_raises_witness :
  _is_safe_code Cases.host Cases.code_relative = Raise AttributeError ∧
  @execute_code unit Cases.host 30 [] (StillAlive []) Cases.code_relative
  = (Raised AttributeError, []).
Proof.
  apply (module_less_import_raises Cases.host Cases.code_relative
           Cases.tree_relative [Cases.tree_relative] [Cases.plain "x"] 1
           [AliasNode (Cases.plain "x")]).
  - reflexivity.
  - reflexivity.
  - repeat constructor.
Defined.

(** C5: a snippet with a syntax error is rejected by
    [check_folder_for_snippet] with a [ValueError], the only file-system
    operation being the existence test of the folder, and refused by
    [execute_code] with execution time 0 and no worker started. *)
Theorem syntax_error_refused {PyObj} h folder snippet msg world timeout queue w :
  ast_parse h snippet = Raise (SyntaxError msg) →
  (∃ m world',
      check_folder_for_snippet h folder snippet world = (Raise (ValueError m), world') ∧
      files world' = files world ∧
      log world' = log world ++ [OpExists folder]) ∧
  (∃ r, @execute_code PyObj h timeout queue w snippet = (Returned r, []) ∧
        success r = false ∧ output r = [] ∧ execution_time r = Some 0%Q).
Proof.
  intros Hparse. split.
  - unfold check_folder_for_snippet, mbind, path_exists, raise.
    destruct (bool_decide _); simpl; [|by eexists _, _].
    destruct (strip snippet); [by eexists _, _|].
    rewrite Hparse. by eexists _, _.
  - unfold execute_code, _is_safe_code. rewrite Hparse. by eexists.
Qed.

Lemma syntax_error_refused_witness :
  ((∃ m world',
       check_folder_for_snippet Cases.host (py "src") (py "def (") Cases.world_src
       = (Raise (ValueError m), world') ∧
       files world' = files Cases.world_src ∧
       log world' = log Cases.world_src ++ [OpExists (py "src")]) ∧
   (∃ r, @execute_code unit Cases.host 30 [] (StillAlive []) (py "def (")
         = (Returned r, []) ∧
         success r = false ∧ output r = [] ∧ execution_time r = Some 0%Q)) ∧
  is_Some (files Cases.world_src !! py "src") ∧
  (check_folder_for_snippet Cases.host (py "src") (py "def (") Cases.world_src).1
  = Raise (ValueError (py "Invalid Python syntax in snippet: invalid syntax")).
Proof.
  split.
  - apply (syntax_error_refused Cases.host (py "src") (py "def (")
             (py "invalid syntax")).
    reflexivity.
  - split; [by eexists | vm_compute; reflexivity].
Defined.

(** C2: when the worker of a vetted snippet is still alive after the
    join, [execute_code] returns a failure that reports the timeout, with
    the configured timeout as execution time; the parent joined once and
    did not read the queue. *)
Theorem timeout_reported {PyObj} h timeout queue captured code :
  _is_safe_code h code = Ok true →
  @execute_code PyObj h timeout queue (StillAlive captured) code
  = (Returned {| success := false; output := captured;
                 error := py "Execution timed out after "
                          ++ str_of_int timeout ++ py " seconds";
                 execution_time := Some (inject_Z timeout);
                 local_vars := None |},
     [ThreadStart; Join timeout]).
Proof. intros H. unfold execute_code. by rewrite H. Qed.

Lemma timeout_reported_witness :
  @execute_code unit Cases.host 1 [] (StillAlive []) Cases.code_loop
  = (Returned {| success := false; output := [];
                 error := py "Execution timed out after 1 seconds";
                 execution_time := Some 1%Q;
                 local_vars := None |},
     [ThreadStart; Join 1]).
Proof.
  apply (timeout_reported Cases.host 1 [] [] Cases.code_loop).
  vm_compute. reflexivity.
Defined.

(** *** Indentation *)

Lemma leading_ws_decomp line :
  line = leading_ws line ++ lstrip line ∧ blank (leading_ws line).
Proof.
  destruct (lstrip_decomp line) as (ws & Hl & Hws).
  assert (leading_ws line = ws) as ->; [|done].
  unfold leading_ws. rewrite Hl at 1 3. rewrite length_app.
  replace (length ws + length (lstrip line) - length (lstrip line))
    with (length ws) by lia.
  by rewrite take_app_length.
Qed.

Lemma snippet_indentation_blank snippet :
  blank (_get_snippet_indentation snippet).
Proof.
  unfold _get_snippet_indentation. destruct (splitlines snippet); [constructor|].
  apply leading_ws_decomp.
Qed.

Lemma adjust_line_prefix si line r :
  blank si → strip line ≠ [] → line = si ++ r → adjust_line si si line = line.
Proof.
  intros Hsi Hline ->. unfold adjust_line.
  destruct (strip (si ++ r)) eqn:Hs; [done|].
  assert (r ≠ []) as Hr.
  { intros ->. rewrite app_nil_r in Hs. apply strip_blank in Hsi. congruence. }
  assert ((length si <? length (si ++ r)) = true) as ->.
  { apply Nat.ltb_lt. rewrite length_app. destruct r; [done | simpl; lia]. }
  by rewrite drop_app_length.
Qed.

Lemma lookup_map {A B} (f : A → B) (l : list A) i :
  map f l !! i = f <$> l !! i.
Proof. revert i. induction l; intros [|i]; simpl; auto. Qed.

(** C9 fails at an indented first line followed by the line [b]: the
    line is shorter than the indentation and is given the indentation. *)
Lemma short_line_is_reindented :
  let si := _get_snippet_indentation Cases.snippet_dedent in
  si = py "    " ∧
  splitlines Cases.snippet_dedent !! 1 = Some (py "b") ∧
  strip (py "b") ≠ [] ∧
  adjusted_lines Cases.snippet_dedent si si !! 1 = Some (py "    b") ∧
  py "    b" ≠ py "b".
Proof. repeat split; done. Qed.

(** C9, as the code has it: with the target indentation equal to the
    indentation of the snippet's first line, a non-blank line that
    starts with that indentation is left as it is; the first line is
    such a line. *)
Theorem equal_indentation_keeps_lines snippet :
  let si := _get_snippet_indentation snippet in
  (∀ i line, splitlines snippet !! i = Some line → strip line ≠ [] →
             (∃ r, line = si ++ r) →
             adjusted_lines snippet si si !! i = Some line) ∧
  (∀ line, splitlines snippet !! 0 = Some line → ∃ r, line = si ++ r).
Proof.
  intros si. split.
  - intros i line Hi Hline [r Hr]. unfold adjusted_lines.
    rewrite lookup_map, Hi. simpl. f_equal.
    eapply adjust_line_prefix; [apply snippet_indentation_blank | done..].
  - intros line H0. subst si. unfold _get_snippet_indentation.
    destruct (splitlines snippet) as [|first rest]; [done|].
    injection H0 as ->. exists (lstrip line). apply leading_ws_decomp.
Qed.

Lemma equal_indentation_keeps_lines_witness :
  adjusted_lines (py "  a") (py "  ") (py "  ") !! 0 = Some (py "  a").
Proof.
  apply (proj1 (equal_indentation_keeps_lines (py "  a")) 0 (py "  a")).
  - reflexivity.
  - vm_compute. discriminate.
  - exists (py "a"). reflexivity.
Defined.

(** *** Backup and overwrite *)

(** A regular file can be opened for writing as the names stand. *)
Lemma slot_file p fs d m : fs !! p = Some (File d m) → slot p fs = Ok fs.
Proof. intros H. unfold slot. by rewrite H. Qed.

(** Opening for writing changes no name, or adds that of a new file to
    the listing of its directory. *)
Lemma slot_inv p fs fs' :
  slot p fs = Ok fs' →
  (fs' = fs ∧ ∃ d m, fs !! p = Some (File d m)) ∨
  (fs !! p = None ∧
   ∃ names, fs !! parent p = Some (Dir names) ∧
            fs' = <[parent p := Dir (add_name (basename p) names)]> fs).
Proof.
  unfold slot. destruct (fs !! p) as [[d m|names]|] eqn:Hp; [| done |].
  - intros [= <-]. left. by eauto.
  - destruct (fs !! parent p) as [[d m|names]|] eqn:Hd; [done | | done].
    intros [= <-]. right. by eauto.
Qed.

Lemma slot_files p fs fs' q d m :
  slot p fs = Ok fs' → fs !! q = Some (File d m) → fs' !! q = Some (File d m).
Proof.
  intros [(-> & _) | (_ & names & Hd & ->)]%slot_inv Hq; [done|].
  rewrite lookup_insert_ne; [done|]. intros <-. congruence.
Qed.





(** The world after a backup and overwrite that met no fault. *)
Lemma backup_success p code w d m fs :
  files w !! p = Some (File d m) →
  backup_path_of p ≠ p →
  (∀ names, files w !! backup_path_of p ≠ Some (Dir names)) →
  slot (backup_path_of p) (files w) = Ok fs →
  faults w !! backup_path_of p = None →
  faults w !! p = None →
  backup_and_write_code p code w
  = (Ok (backup_path_of p),
     {| files := <[p := File (Utf8 code) (clock w)]>
                   (<[backup_path_of p := File d m]> fs);
        clock := S (clock w);
        log := log w ++ [OpExists p; OpCopy2 p (backup_path_of p);
                         OpWrite p code];
        faults := faults w |}).
Proof.
  intros Hfile Hne Hdir Hslot Hfb Hfp. set (b := backup_path_of p) in *.
  unfold backup_and_write_code, mbind, path_exists.
  rewrite Hfile. rewrite bool_decide_eq_true_2 by (by eexists).
  cbn [negb]. fold b. unfold copy2. cbn [files clock log logged faults].
  assert ((match files w !! b with
           | Some (Dir _) => path_join b (basename p)
           | _ => b
           end) = b) as ->.
  { destruct (files w !! b) as [[|names]|] eqn:Hb; try done.
    by destruct (Hdir names). }
  rewrite Hfile. rewrite bool_decide_eq_false_2 by done.
  unfold store at 1. cbn [files clock log logged faults].
  rewrite Hslot, Hfb.
  unfold write_text, store, ret. cbn [files clock log logged faults].
  rewrite (slot_file p _ d m).
  2:{ rewrite lookup_insert_ne by done. by eapply slot_files. }
  rewrite Hfp. by rewrite <- !app_assoc.
Qed.


(** C3: [backup_and_write_code], which its docstring says creates a
    backup and writes the updated code to the file, does neither for the
    regular file [a.old]: the backup path is the file itself, the copy is
    refused with [SameFileError] and nothing is written.  Where [a.old]
    is a directory beside [a.py], the path returned is that of the
    directory, which received the copy as [a.old/a.py]. *)
Lemma backup_onto_itself_refused :
  (files Cases.world_old !! py "a.old" = Some (File (Utf8 (py "old")) 0) ∧
   ∃ w', backup_and_write_code (py "a.old") (py "new") Cases.world_old
         = (Raise SameFileError, w') ∧
         files w' = files Cases.world_old) ∧
  (files Cases.world_old_dir !! py "a.py" = Some (File (Utf8 (py "old")) 0) ∧
   ∃ w', backup_and_write_code (py "a.py") (py "new") Cases.world_old_dir
         = (Ok (py "a.old"), w') ∧
         files w' !! py "a.old" = Some (Dir [py "a.py"]) ∧
         files w' !! py "a.old/a.py" = Some (File (Utf8 (py "old")) 0)).
Proof.
  split.
  - split; [vm_compute; reflexivity|].
    eexists. split; [vm_compute; reflexivity | reflexivity].
  - split; [vm_compute; reflexivity|].
    eexists. split; [vm_compute; reflexivity|].
    split; vm_compute; reflexivity.
Qed.

(** Where [backup_and_write_code] does what its docstring says: a
    missing target raises [FileNotFoundError] and leaves the file system
    as it was; a regular file whose backup path is neither the file
    itself nor a directory is, where no write fails, first copied, bytes
    and modification stamp, to the backup path, then overwritten, and the
    backup path is returned. *)
Lemma backup_then_overwrite p code w :
  (files w !! p = None →
   ∃ msg w', backup_and_write_code p code w = (Raise (FileNotFoundError msg), w') ∧
             files w' = files w ∧ log w' = log w ++ [OpExists p]) ∧
  (∀ d m fs, files w !! p = Some (File d m) →
          backup_path_of p ≠ p →
          (∀ names, files w !! backup_path_of p ≠ Some (Dir names)) →
          slot (backup_path_of p) (files w) = Ok fs →
          faults w !! backup_path_of p = None →
          faults w !! p = None →
          ∃ w1 w2,
            copy2 p (backup_path_of p) (logged (OpExists p) w) = (Ok tt, w1) ∧
            files w1 !! backup_path_of p = Some (File d m) ∧
            files w1 !! p = Some (File d m) ∧
            write_text p code w1 = (Ok tt, w2) ∧
            backup_and_write_code p code w = (Ok (backup_path_of p), w2) ∧
            files w2 !! backup_path_of p = Some (File d m) ∧
            files w2 !! p = Some (File (Utf8 code) (clock w)) ∧
            log w2 = log w ++ [OpExists p; OpCopy2 p (backup_path_of p);
                               OpWrite p code]).
Proof.
  split.
  - intros Hnone. unfold backup_and_write_code, mbind, path_exists, raise.
    rewrite Hnone. rewrite bool_decide_eq_false_2 by (by intros [? ?]).
    simpl. by eexists _, _.
  - intros d m fs Hfile Hne Hdir Hslot Hfb Hfp.
    pose proof (backup_success p code w d m fs Hfile Hne Hdir Hslot Hfb Hfp)
      as Hrun.
    set (b := backup_path_of p) in *.
    assert ((<[b := File d m]> fs) !! p = Some (File d m)) as Hp.
    { rewrite lookup_insert_ne by done. by eapply slot_files. }
    assert (copy2 p b (logged (OpExists p) w)
            = (Ok tt, {| files := <[b := File d m]> fs;
                         clock := clock w;
                         log := (log w ++ [OpExists p]) ++ [OpCopy2 p b];
                         faults := faults w |}))
      as Hcopy.
    { unfold copy2. cbn [files clock log logged faults].
      assert ((match files w !! b with
               | Some (Dir _) => path_join b (basename p)
               | _ => b
               end) = b) as ->.
      { destruct (files w !! b) as [[|names]|] eqn:Hb; try done.
        by destruct (Hdir names). }
      rewrite Hfile. rewrite bool_decide_eq_false_2 by done.
      unfold store. cbn [files clock log logged faults].
      by rewrite Hslot, Hfb. }
    eexists _, _. split; [exact Hcopy|]. cbn [files].
    split; [apply lookup_insert_eq|]. split; [exact Hp|].
    split.
    { unfold write_text, store. cbn [files clock log logged faults].
      rewrite (slot_file p _ d m Hp). rewrite Hfp. reflexivity. }
    split.
    { rewrite Hrun. by rewrite <- !app_assoc. }
    cbn [files log].
    split; [rewrite lookup_insert_ne by done; apply lookup_insert_eq|].
    split; [apply lookup_insert_eq|]. by rewrite <- !app_assoc.
Qed.

(** *** Ranking *)

Lemma insert_desc_perm x l : insert_desc x l ≡ₚ x :: l.
Proof.
  induction l as [|y l IH]; simpl; [done|].
  destruct (Qgtb _ _); [|done]. rewrite IH. apply Permutation_swap.
Qed.

Lemma sorted_desc_perm l : sorted_desc l ≡ₚ l.
Proof.
  induction l as [|x l IH]; simpl; [done|].
  by rewrite insert_desc_perm, IH.
Qed.

Lemma Qgtb_false a b : Qgtb a b = false ↔ (a <= b)%Q.
Proof.
  unfold Qgtb. rewrite negb_false_iff. apply Qle_bool_iff.
Qed.

Lemma insert_desc_sorted x l :
  StronglySorted by_confidence l → StronglySorted by_confidence (insert_desc x l).
Proof.
  induction 1 as [|y l Hl IH Hy]; simpl.
  - repeat constructor.
  - destruct (Qgtb (confidence y) (confidence x)) eqn:Hgt.
    + constructor; [done|]. rewrite insert_desc_perm. constructor; [|done].
      apply Qgtb_true in Hgt. unfold by_confidence. lra.
    + apply Qgtb_false in Hgt. constructor; [by constructor|].
      constructor; [done|]. eapply Forall_impl; [exact Hy|].
      unfold by_confidence. intros z Hz. simpl in Hz. lra.
Qed.

Lemma sorted_desc_sorted l : StronglySorted by_confidence (sorted_desc l).
Proof.
  induction l as [|x l IH]; simpl; [constructor | by apply insert_desc_sorted].
Qed.

Lemma insert_desc_ties c x l : ties c (insert_desc x l) = ties c (x :: l).
Proof.
  induction l as [|y l IH]; [done|]. simpl.
  destruct (Qgtb (confidence y) (confidence x)) eqn:Hgt; [|done].
  apply Qgtb_true in Hgt. unfold ties in *. simpl in *. rewrite IH.
  destruct (Qeq_bool (confidence x) c) eqn:Hx; [|done].
  destruct (Qeq_bool (confidence y) c) eqn:Hy; [|done].
  apply Qeq_bool_iff in Hx, Hy. lra.
Qed.

(** The sort is stable: placements of equal confidence keep their
    order. *)
Lemma sorted_desc_ties c l : ties c (sorted_desc l) = ties c l.
Proof.
  induction l as [|x l IH]; [done|]. simpl.
  rewrite insert_desc_ties. unfold ties in *. simpl. by rewrite IH.
Qed.

Lemma StronglySorted_take {A} (R : relation A) n l :
  StronglySorted R l → StronglySorted R (take n l).
Proof.
  intros H. revert n. induction H as [|x l Hl IH Hx]; intros [|n]; simpl;
    try constructor; [apply IH | by apply Forall_take].
Qed.

Lemma scan_file_kept h snippet py_file w p w' :
  scan_file h snippet py_file w = (Ok (Some p), w') →
  file_path p = py_file ∧ kept p.
Proof.
  unfold scan_file, mbind, lift, ret, read_text.
  destruct (files w !! py_file) as [[[text|raw] m|names]|]; try done.
  destruct (strip _); [done|].
  destruct (_calculate_matching_scores _ _ _) as [sc|]; [|done].
  destruct (Qgtb _ _) eqn:Hgt; [|done].
  destruct (_find_best_match _ snippet) as [m1|]; [|done].
  destruct (_find_best_match _ _) as [m2|]; [|done].
  destruct (bool_decide _) eqn:Hstart; [|done].
  intros [= <- _]. simpl. split; [done|]. split.
  - by apply Qgtb_true.
  - by apply bool_decide_eq_true in Hstart.
Qed.

(** The loop over the files never raises; what it appends are kept
    placements, one per file at most, in the order of the files. *)
Lemma scan_files_spec h snippet python_files :
  ∀ placements w, ∃ found w',
    scan_files h snippet python_files placements w = (Ok (placements ++ found), w') ∧
    Forall kept found ∧
    map file_path found `sublist_of` python_files.
Proof.
  induction python_files as [|f rest IH]; intros placements w; simpl.
  - exists [], w. rewrite app_nil_r. by repeat split.
  - unfold mbind at 1, try_except.
    destruct (scan_file h snippet f w) as [[[p|]|e] w1] eqn:Hscan; simpl.
    + destruct (IH (placements ++ [p]) w1) as (found & w' & Hrun & Hkept & Hsub).
      exists (p :: found), w'. rewrite Hrun, <- app_assoc. split; [done|].
      apply scan_file_kept in Hscan as [Hpath Hp]. split; [by constructor|].
      simpl. rewrite Hpath. by apply sublist_skip.
    + destruct (IH (placements ++ []) w1) as (found & w' & Hrun & Hkept & Hsub).
      exists found, w'. rewrite Hrun, app_nil_r. split; [done|].
      split; [done | by apply sublist_cons].
    + destruct (IH (placements ++ []) w1) as (found & w' & Hrun & Hkept & Hsub).
      exists found, w'. rewrite Hrun, app_nil_r. split; [done|].
      split; [done | by apply sublist_cons].
Qed.

(** The function returns a list only for a folder that is a directory
    and a snippet that is not blank and parses. *)
Lemma check_folder_returns_only_if h folder snippet w ranked w' :
  check_folder_for_snippet h folder snippet w = (Ok ranked, w') →
  (∃ names, files w !! folder = Some (Dir names)) ∧
  strip snippet ≠ [] ∧
  ∃ tree, ast_parse h snippet = Ok tree.
Proof.
  unfold check_folder_for_snippet, mbind at 1, path_exists.
  destruct (bool_decide _); simpl; [|done].
  destruct (strip snippet) eqn:Hs; [done|].
  destruct (ast_parse h snippet) as [tree|[]]; try done.
  unfold mbind at 1, listdir. simpl.
  destruct (files w !! folder) as [[|names]|]; try done.
  intros _. split; [by eexists|]. split; [done | by eexists].
Qed.

(** C7: for a folder that is a directory and a snippet that parses,
    [check_folder_for_snippet] returns the first two of the placements it
    kept, sorted by decreasing confidence with ties in the order of the
    directory listing; each has a confidence above 0.3 and a start line
    other than -1. *)
Theorem check_folder_ranking h folder snippet tree names w :
  files w !! folder = Some (Dir names) →
  strip snippet ≠ [] →
  ast_parse h snippet = Ok tree →
  ∃ placements w',
    let ranked := take 2 (sorted_desc placements) in
    check_folder_for_snippet h folder snippet w = (Ok ranked, w') ∧
    length ranked ≤ 2 ∧
    Forall (λ p, (3 # 10 < confidence p)%Q ∧ start_line p ≠ (-1)%Z) ranked ∧
    StronglySorted by_confidence ranked ∧
    map file_path placements
      `sublist_of` map (path_join folder)
                       (filter (λ f, endswith f (py ".py") = true) names) ∧
    sorted_desc placements ≡ₚ placements ∧
    ∀ c, ties c (sorted_desc placements) = ties c placements.
Proof.
  intros Hdir Hsnip Hparse.
  destruct (scan_files_spec h snippet
              (map (path_join folder)
                   (filter (λ f, endswith f (py ".py") = true) names))
              [] (logged (OpListdir folder) (logged (OpExists folder) w)))
    as (found & w' & Hrun & Hkept & Hsub).
  exists found, w'. simpl in Hrun. split.
  { unfold check_folder_for_snippet, mbind at 1, path_exists.
    rewrite Hdir. rewrite bool_decide_eq_true_2 by (by eexists). simpl.
    destruct (strip snippet); [done|]. rewrite Hparse.
    unfold mbind at 1, listdir. simpl. rewrite Hdir.
    unfold mbind. by rewrite Hrun. }
  split. { rewrite length_take. lia. }
  split. { apply Forall_take. by rewrite sorted_desc_perm. }
  split. { apply StronglySorted_take, sorted_desc_sorted. }
  split; [done|]. split; [apply sorted_desc_perm|].
  intros c. apply sorted_desc_ties.
Qed.

Lemma check_folder_ranking_witness :
  ∃ placements w',
    let ranked := take 2 (sorted_desc placements) in
    check_folder_for_snippet Cases.host (py "src") Cases.code_x Cases.world_src
    = (Ok ranked, w') ∧
    length ranked ≤ 2 ∧
    Forall (λ p, (3 # 10 < confidence p)%Q ∧ start_line p ≠ (-1)%Z) ranked ∧
    StronglySorted by_confidence ranked ∧
    map file_path placements
      `sublist_of` map (path_join (py "src"))
                       (filter (λ f, endswith f (py ".py") = true)
                          [py "a.py"; py "notes.txt"; py "b.py"; py "c.py"; py "d.py"]) ∧
    sorted_desc placements ≡ₚ placements ∧
    ∀ c, ties c (sorted_desc placements) = ties c placements.
Proof.
  apply (check_folder_ranking Cases.host (py "src") Cases.code_x Cases.tree_x
           [py "a.py"; py "notes.txt"; py "b.py"; py "c.py"; py "d.py"]
           Cases.world_src).
  - vm_compute. reflexivity.
  - vm_compute. discriminate.
  - reflexivity.
Defined.

(** The listing of [src]: [a.py] and [d.py] hold the snippet, [b.py] is
    empty, [c.py] cannot be opened and [notes.txt] is no Python file. *)
Example check_folder_src :
  ∃ ranked w',
    check_folder_for_snippet Cases.host (py "src") Cases.code_x Cases.world_src
    = (Ok ranked, w') ∧
    map (λ p, (file_path p, matched_code p, start_line p, end_line p)) ranked
    = [(py "src/a.py", py "x", 1%Z, 1%Z); (py "src/d.py", py "x", 1%Z, 1%Z)] ∧
    Forall (λ p, (confidence p == 1)%Q) ranked ∧
    log w' = [OpExists (py "src"); OpListdir (py "src");
              OpRead (py "src/a.py"); OpRead (py "src/b.py");
              OpRead (py "src/c.py"); OpRead (py "src/d.py")].
Proof.
  eexists _, _. split; [vm_compute; reflexivity|].
  split; [reflexivity|]. split; [by repeat constructor | reflexivity].
Qed.

(** * Further properties *)

Import Main.

(** *** What a vetted snippet holds *)

Lemma check_node_true_iff h n : check_node h n = Ok true ↔ ¬ forbidden h n.
Proof.
  destruct n as [id ctx | names | [m|] names level | targets
                | func args keywords | value attr ctx | a | cls fields];
    cbn [check_node forbidden].
  - destruct (decide (id ∈ safe_builtins)) as [Hs | Hs];
      destruct (decide (id ∈ dir_builtins h)) as [Hd | Hd].
    + rewrite bool_decide_eq_false_2 by (intros H; by apply H). simpl.
      split; [intros _ [H _]; by apply H | done].
    + rewrite bool_decide_eq_false_2 by (intros H; by apply H). simpl.
      split; [intros _ [H _]; by apply H | done].
    + rewrite !bool_decide_eq_true_2 by done. simpl.
      split; [done | intros H; by destruct H].
    + rewrite bool_decide_eq_true_2 by done.
      rewrite (bool_decide_eq_false_2 (id ∈ dir_builtins h)) by done. simpl.
      split; [intros _ [_ H]; by apply Hd | done].
  - destruct (forallb _ names) eqn:Hall.
    + split; [|done]. intros _ (a & Ha & Hout).
      rewrite forallb_forall in Hall. apply list_elem_of_In in Ha.
      apply Hall in Ha. by apply bool_decide_eq_true in Ha.
    + split; [done|]. intros Hno. exfalso.
      apply not_true_iff_false in Hall. apply Hall.
      apply forallb_forall. intros a Ha. apply bool_decide_eq_true.
      destruct (decide (top_module (alias_name a) ∈ allowed_modules)); [done|].
      destruct Hno. exists a. split; [by apply list_elem_of_In | done].
  - destruct (decide (top_module m ∈ allowed_modules)) as [Hm | Hm].
    + rewrite bool_decide_eq_true_2 by done.
      split; [intros _ H; by apply H | done].
    + rewrite bool_decide_eq_false_2 by done.
      split; [done | intros H; by destruct H].
  - split; [done | intros H; by destruct H].
  - split; [done | intros H; by destruct H].
  - destruct func as [id ctx| | | | | | |];
      try (split; [intros _ H; exact H | done]).
    destruct (decide (id = py "eval")) as [He | He].
    + rewrite bool_decide_eq_true_2 by done. simpl.
      split; [done | intros H; destruct H; by left].
    + rewrite bool_decide_eq_false_2 by done. simpl.
      destruct (decide (id = py "exec")) as [Hx | Hx].
      * rewrite bool_decide_eq_true_2 by done.
        split; [done | intros H; destruct H; by right].
      * rewrite bool_decide_eq_false_2 by done.
        split; [intros _ [H | H]; done | done].
  - destruct (startswith attr (py "__")) eqn:Hs.
    + apply startswith_spec in Hs. split; [done | intros H; by destruct H].
    + split; [|done]. intros _ H. apply startswith_spec in H. congruence.
  - split; [intros _ H; exact H | done].
  - split; [intros _ H; exact H | done].
Qed.

Lemma check_nodes_true_iff h nodes :
  check_nodes h nodes = Ok true ↔ ∀ n, n ∈ nodes → check_node h n = Ok true.
Proof.
  induction nodes as [|m nodes IH]; simpl.
  - split; [|done]. intros _ n Hn. by apply elem_of_nil in Hn.
  - destruct (check_node h m) as [[]|e] eqn:Hm.
    + rewrite IH. split.
      * intros H n Hn. apply elem_of_cons in Hn as [-> | Hn]; auto.
      * intros H n Hn. apply H. by right.
    + split; [done|]. intros H. specialize (H m (list_elem_of_here _ _)). congruence.
    + split; [done|]. intros H. specialize (H m (list_elem_of_here _ _)). congruence.
Qed.

(** X1: [_is_safe_code] answers [True] exactly for the texts that parse
    into a tree none of whose nodes is forbidden: no name of a built-in
    outside the allowed ones, no import outside the allowed modules or
    without module name, no [del], no direct call of [eval] or [exec], no
    attribute whose name starts with two underscores. *)
Theorem safe_code_iff h code :
  _is_safe_code h code = Ok true ↔
  ∃ tree, ast_parse h code = Ok tree ∧ ∀ n, node_of n tree → ¬ forbidden h n.
Proof.
  unfold _is_safe_code. destruct (ast_parse h code) as [tree|e].
  - rewrite check_nodes_true_iff. split.
    + intros H. exists tree. split; [done|]. intros n Hn.
      apply check_node_true_iff, H. by apply walk_complete.
    + intros (tree' & [= <-] & H) n Hn.
      apply check_node_true_iff, H. by apply walk_sound.
  - split; [by destruct e | by intros (tree & ? & _)].
Qed.

(** X2: for a text that parses and holds no from-import without module
    name, [_is_safe_code] returns a verdict: it does not raise. *)
Theorem safe_code_verdict h code tree :
  ast_parse h code = Ok tree →
  (∀ n, node_of n tree → ¬ module_less_import n) →
  ∃ verdict, _is_safe_code h code = Ok verdict.
Proof.
  intros Hparse Hnone. unfold _is_safe_code. rewrite Hparse.
  assert (∀ nodes, (∀ n, n ∈ nodes → node_of n tree) →
                   ∃ verdict, check_nodes h nodes = Ok verdict) as Hloop.
  { induction nodes as [|m nodes IH]; intros Hin; simpl; [by eexists|].
    destruct (check_node h m) as [[]|e] eqn:Hm.
    - apply IH. intros n Hn. apply Hin. by right.
    - by eexists.
    - apply check_node_raises in Hm as [Hm _].
      destruct (Hnone m); [apply Hin; left | done]. }
  apply Hloop. intros n. apply walk_sound.
Qed.

Lemma safe_code_verdict_witness :
  ∃ verdict, _is_safe_code Cases.host Cases.code_loop = Ok verdict.
Proof.
  apply (safe_code_verdict Cases.host Cases.code_loop Cases.tree_loop).
  - reflexivity.
  - intros n Hn. apply walk_complete in Hn. vm_compute in Hn.
    repeat (apply elem_of_cons in Hn as [-> | Hn]; [simpl; tauto|]).
    by apply elem_of_nil in Hn.
Defined.

(** X3: a result with [success = True] is only returned for a snippet
    that passed the vetting, after the worker was started and joined and
    the queue read. *)
Theorem success_only_if_vetted {PyObj} h timeout queue w code r events :
  @execute_code PyObj h timeout queue w code = (Returned r, events) →
  success r = true →
  _is_safe_code h code = Ok true ∧
  events = [ThreadStart; Join timeout; QueueGet] ∧
  ∃ e elapsed, w = Exited e elapsed.
Proof.
  unfold execute_code. destruct (_is_safe_code h code) as [[]|e]; [| |done].
  - destruct w as [captured | e elapsed].
    + intros [= <- _]. done.
    + destruct (queue ++ option_list (execute e)) as [|result rest]; [done|].
      intros [= <- <-] _. split; [done|]. split; [done | by eexists _, _].
  - intros [= <- _]. done.
Qed.

Lemma success_only_if_vetted_witness :
  _is_safe_code Cases.host Cases.code_loop = Ok true ∧
  [ThreadStart; Join 30; QueueGet] = [ThreadStart; Join 30; QueueGet] ∧
  ∃ e elapsed, Exited (PyObj := unit) (ExecReturns [] ∅) 1 = Exited e elapsed.
Proof.
  apply (success_only_if_vetted Cases.host 30 [] (Exited (ExecReturns [] ∅) 1)
           Cases.code_loop
           {| success := true; output := []; error := [];
              execution_time := Some (round3 1); local_vars := Some ∅ |}).
  - vm_compute. reflexivity.
  - reflexivity.
Defined.

(** X4: the queue is shared between calls.  When a call on a manager
    with an empty queue times out and its abandoned worker ends later,
    returning or raising, the next call whose own worker exits within the
    timeout returns the report of the abandoned worker, whatever its own
    worker reports, and leaves that report on the queue for the call
    after it. *)
Theorem abandoned_report_returned_next {PyObj} (h : Host) (timeout : Z)
    (code1 captured : str) (late1 : @exec_obs PyObj)
    (report1 : @ExecResult PyObj) (code2 : str)
    (e2 : @exec_obs PyObj) (elapsed2 : Q) :
  _is_safe_code h code1 = Ok true →
  _is_safe_code h code2 = Ok true →
  execute late1 = Some report1 →
  let queue1 :=
    late_put late1 (queue_after h [] (StillAlive captured) code1) in
  (∃ r1, @execute_code PyObj h timeout [] (StillAlive captured) code1
         = (Returned r1, [ThreadStart; Join timeout]) ∧ success r1 = false) ∧
  ∃ r2, execute_code h timeout queue1 (Exited e2 elapsed2) code2
        = (Returned r2, [ThreadStart; Join timeout; QueueGet]) ∧
        success r2 = success report1 ∧ output r2 = output report1 ∧
        error r2 = error report1 ∧ local_vars r2 = local_vars report1 ∧
        queue_after h queue1 (Exited e2 elapsed2) code2
        = option_list (execute e2).
Proof.
  intros H1 H2 Hlate queue1. subst queue1.
  unfold execute_code, queue_after, late_put. rewrite H1, H2, Hlate. split.
  - by eexists.
  - simpl. by eexists.
Qed.

Lemma abandoned_report_returned_next_witness :
  (∃ r1, @execute_code unit Cases.host 1 [] (StillAlive []) Cases.code_slow
         = (Returned r1, [ThreadStart; Join 1]) ∧ success r1 = false) ∧
  ∃ r2, @execute_code unit Cases.host 1
          (late_put (@ExecReturns unit [] ∅)
             (queue_after Cases.host [] (StillAlive []) Cases.code_slow))
          (Exited (ExecRaises [] (py "NameError")
                     (py "name 'x' is not defined")
                     (py "Traceback (most recent call last):")) (1 # 100))
          Cases.code_x
        = (Returned r2, [ThreadStart; Join 1; QueueGet]) ∧
        success r2 = true ∧ output r2 = [] ∧
        error r2 = [] ∧ local_vars r2 = Some ∅ ∧
        @queue_after unit Cases.host
          (late_put (@ExecReturns unit [] ∅)
             (queue_after Cases.host [] (StillAlive []) Cases.code_slow))
          (Exited (ExecRaises [] (py "NameError")
                     (py "name 'x' is not defined")
                     (py "Traceback (most recent call last):")) (1 # 100))
          Cases.code_x
        = option_list
            (@execute unit (ExecRaises [] (py "NameError")
                        (py "name 'x' is not defined")
                        (py "Traceback (most recent call last):"))).
Proof.
  apply (abandoned_report_returned_next Cases.host 1 Cases.code_slow []
           (@ExecReturns unit [] ∅)
           {| success := true; output := []; error := [];
              execution_time := None; local_vars := Some ∅ |}
           Cases.code_x).
  - vm_compute. reflexivity.
  - vm_compute. reflexivity.
  - reflexivity.
Defined.

(** *** More on lines *)

Lemma str_length_ind (P : str → Prop) :
  (∀ s, (∀ t, length t < length s → P t) → P s) → ∀ s, P s.
Proof.
  intros H s. remember (length s) as n eqn:Hn. revert s Hn.
  induction n as [n IH] using lt_wf_ind. intros s ->.
  apply H. intros t Ht. by apply (IH (length t)).
Qed.

Lemma after_break_length c s : length (after_break c s) ≤ length s.
Proof.
  unfold after_break. destruct (Ascii.eqb c CR); [|done].
  destruct s as [|d s]; [done|]. destruct (Ascii.eqb d LF); simpl; lia.
Qed.

Lemma splitlines_break c s :
  is_linebreak c = true →
  splitlines (c :: s) = [] :: splitlines (after_break c s).
Proof.
  intros Hc. simpl. rewrite Hc. unfold after_break.
  destruct (Ascii.eqb c CR); [|done].
  destruct s as [|d s]; [done|]. by destruct (Ascii.eqb d LF).
Qed.

Lemma splitlines_char c s :
  is_linebreak c = false →
  splitlines (c :: s) = match splitlines s with
                        | [] => [[c]]
                        | l :: ls => (c :: l) :: ls
                        end.
Proof. intros Hc. simpl. by rewrite Hc. Qed.

(** No line holds a line boundary. *)
Lemma splitlines_nobreak s : Forall nobreak (splitlines s).
Proof.
  induction s as [s IH] using str_length_ind.
  destruct s as [|c s]; [constructor|].
  destruct (is_linebreak c) eqn:Hc.
  - rewrite splitlines_break by done. constructor; [constructor|].
    apply IH. pose proof (after_break_length c s). simpl. lia.
  - rewrite splitlines_char by done.
    pose proof (IH s ltac:(simpl; lia)) as Hs.
    destruct (splitlines s) as [|l ls].
    + by repeat constructor.
    + apply Forall_cons in Hs as [Hl Hls]. constructor; [by constructor | done].
Qed.

Lemma linebreak_isspace c : is_linebreak c = true → isspace c = true.
Proof.
  unfold is_linebreak, isspace. intros H.
  repeat match type of H with
         | (_ || _)%bool = true => apply orb_true_iff in H as [H | H]
         | (_ && _)%bool = true => apply andb_true_iff in H as [H H']
         end;
    rewrite ?N.leb_le, ?N.eqb_eq in *;
    repeat (apply orb_true_iff; first [ left; apply N.eqb_eq; lia
                                      | left; apply andb_true_iff; split; apply N.leb_le; lia
                                      | right; apply N.eqb_eq; lia
                                      | right; apply andb_true_iff; split; apply N.leb_le; lia
                                      | left ]).
Qed.

(** A text is whitespace exactly when its lines are. *)
Lemma lines_blank s : Forall blank (splitlines s) → blank s.
Proof.
  induction s as [s IH] using str_length_ind.
  destruct s as [|c s]; [constructor|].
  destruct (is_linebreak c) eqn:Hc.
  - rewrite splitlines_break by done. intros H.
    apply Forall_cons in H as [_ H].
    pose proof (after_break_length c s).
    apply IH in H; [|simpl; lia].
    constructor; [by apply linebreak_isspace|].
    unfold after_break in H. destruct (Ascii.eqb c CR); [|done].
    destruct s as [|d s]; [done|]. destruct (Ascii.eqb d LF) eqn:Hd; [|done].
    apply Ascii.eqb_eq in Hd as ->. by constructor.
  - rewrite splitlines_char by done.
    pose proof (IH s ltac:(simpl; lia)) as Hs.
    destruct (splitlines s) as [|l ls] eqn:Hl.
    + intros H. apply Forall_cons in H as [H _].
      apply splitlines_nil in Hl as ->. done.
    + intros H. apply Forall_cons in H as [Hcl Hls].
      apply Forall_cons in Hcl as [Hsp Hbl].
      constructor; [done|]. apply Hs. by constructor.
Qed.

Lemma contains_refl s : contains s s = true.
Proof. apply contains_spec, infix_refl. Qed.

Lemma lstrip_id s c r : s = c :: r → isspace c = false → lstrip s = s.
Proof. intros -> Hc. simpl. by rewrite Hc. Qed.

(** Stripping twice is stripping once. *)
Lemma strip_idem s : strip (strip s) = strip s.
Proof.
  destruct (strip_ends s) as [-> | [(c & r & Hc & Hsp) (d & t & Hd & Hsp')]];
    [done|].
  unfold strip at 1, rstrip. rewrite (lstrip_id _ _ _ Hd Hsp').
  rewrite rev_involutive. by apply (lstrip_id _ c r).
Qed.

(** *** The scores one by one *)

(** X5: [_first_line_match] is decided by the first target line that
    holds the snippet's first line: 1.0 if the line, stripped, is equal
    to it, 0.8 if not, whatever the later lines are. *)
Theorem first_line_match_decided target first pre line post :
  splitlines target = pre ++ line :: post →
  (∀ l, l ∈ pre → contains first (strip l) = false) →
  contains first (strip line) = true →
  _first_line_match target first
  = if bool_decide (strip line = first) then 1%Q else (8 # 10)%Q.
Proof.
  intros Hlines Hpre Hline. unfold _first_line_match. rewrite Hlines.
  clear Hlines. induction pre as [|l pre IH]; simpl.
  - by rewrite Hline.
  - assert (contains first (strip l) = false) as Hl by (apply Hpre; left).
    rewrite Hl. rewrite bool_decide_eq_false_2.
    + apply IH. intros l' Hl'. apply Hpre. by right.
    + intros Heq. rewrite Heq, contains_refl in Hl. done.
Qed.

Lemma first_line_match_decided_witness :
  _first_line_match (py "ax" ++ [LF] ++ py "x") (py "x") = (8 # 10)%Q.
Proof.
  apply (first_line_match_decided (py "ax" ++ [LF] ++ py "x") (py "x")
           [] (py "ax") [py "x"]).
  - reflexivity.
  - intros l Hl. by apply elem_of_nil in Hl.
  - reflexivity.
Defined.

Lemma existsb_false_iff {A} (f : A → bool) (l : list A) :
  existsb f l = false ↔ ∀ x, x ∈ l → f x = false.
Proof.
  induction l as [|y l IH]; simpl.
  - split; [|done]. intros _ x Hx. by apply elem_of_nil in Hx.
  - rewrite orb_false_iff, IH. split.
    + intros [Hy Hl] x Hx. apply elem_of_cons in Hx as [-> | Hx]; auto.
    + intros H. split; [apply H; left | intros x Hx; apply H; by right].
Qed.

Lemma end_line_scan_zero last_lines target_lines offsets :
  (∀ i, i ∈ offsets → zip last_lines (drop i target_lines) ≠ []) →
  end_line_scan last_lines target_lines offsets = 0%Q ↔
  ∀ i, i ∈ offsets →
       existsb line_in (zip last_lines (drop i target_lines)) = false.
Proof.
  induction offsets as [|i offsets IH]; intros Hne; simpl.
  - split; [|done]. intros _ i Hi. by apply elem_of_nil in Hi.
  - assert (∀ j, j ∈ offsets → zip last_lines (drop j target_lines) ≠ []) as Hne'.
    { intros j Hj. apply Hne. by right. }
    destruct (forallb line_in (zip last_lines (drop i target_lines))) eqn:Hall.
    + split; [done|]. intros H. specialize (H i (list_elem_of_here _ _)).
      specialize (Hne i (list_elem_of_here _ _)).
      destruct (zip last_lines (drop i target_lines)) as [|p w]; [done|].
      simpl in *. apply andb_true_iff in Hall as [Hp _]. by rewrite Hp in H.
    + destruct (existsb line_in (zip last_lines (drop i target_lines))) eqn:Hany.
      * split; [done|]. intros H. specialize (H i (list_elem_of_here _ _)). congruence.
      * rewrite (IH Hne'). split.
        -- intros H j Hj. apply elem_of_cons in Hj as [-> | Hj]; auto.
        -- intros H j Hj. apply H. by right.
Qed.

(** X6: for a non-empty list of last lines, [_end_line_match] is 0.0
    exactly when at no offset where the lines fit into the target one of
    them, stripped, occurs in the stripped target line facing it; in
    particular when the target has fewer lines than the list. *)
Theorem end_line_match_zero target last_lines :
  last_lines ≠ [] →
  (_end_line_match target last_lines = 0%Q ↔
   ∀ i j a b, i + length last_lines ≤ length (splitlines target) →
              last_lines !! j = Some a →
              splitlines target !! (i + j) = Some b →
              contains (strip a) (strip b) = false) ∧
  (length (splitlines target) < length last_lines →
   _end_line_match target last_lines = 0%Q).
Proof.
  intros Hne. unfold _end_line_match.
  set (t := splitlines target).
  assert (∀ i, i ∈ seq 0 (length t + 1 - length last_lines) →
               zip last_lines (drop i t) ≠ []) as Hfit.
  { intros i Hi. apply elem_of_seq in Hi.
    destruct last_lines as [|a l]; [done|].
    destruct (drop i t) as [|b r] eqn:Hd; [|done].
    apply (f_equal length) in Hd. rewrite length_drop in Hd. simpl in *. lia. }
  split.
  - rewrite (end_line_scan_zero _ _ _ Hfit). split.
    + intros H i j a b Hi Ha Hb.
      assert (i ∈ seq 0 (length t + 1 - length last_lines)) as Hin.
      { apply elem_of_seq. lia. }
      specialize (H i Hin). rewrite existsb_false_iff in H.
      apply (H (a, b)). apply list_elem_of_lookup. exists j.
      apply lookup_zip_with_Some. exists a, b. split; [done|]. split; [done|].
      by rewrite lookup_drop.
    + intros H i Hi. apply elem_of_seq in Hi. apply existsb_false_iff.
      intros [a b] Hab. apply list_elem_of_lookup in Hab as [j Hj].
      apply lookup_zip_with_Some in Hj as (a' & b' & [= <- <-] & Ha & Hb).
      rewrite lookup_drop in Hb. apply (H i j a b); [lia | done..].
  - intros Hshort. replace (length t + 1 - length last_lines) with 0 by lia. done.
Qed.

Lemma end_line_match_zero_witness :
  (_end_line_match (py "a") [py "a"; py "b"] = 0%Q ↔
   ∀ i j a b, i + length [py "a"; py "b"] ≤ length (splitlines (py "a")) →
              [py "a"; py "b"] !! j = Some a →
              splitlines (py "a") !! (i + j) = Some b →
              contains (strip a) (strip b) = false) ∧
  (length (splitlines (py "a")) < length [py "a"; py "b"] →
   _end_line_match (py "a") [py "a"; py "b"] = 0%Q).
Proof.
  apply (end_line_match_zero (py "a") [py "a"; py "b"]). discriminate.
Defined.

Lemma split_from_blank s : blank s → split_from [] s = [].
Proof.
  induction 1 as [|c s Hc _ IH]; simpl; [done|]. by rewrite Hc.
Qed.

Lemma tokens_blank s : strip s = [] → size (tokens s) = 0.
Proof.
  intros H. apply strip_blank in H. unfold tokens, split.
  by rewrite split_from_blank.
Qed.

(** X7: [_string_similarity] raises [ZeroDivisionError] exactly for a
    snippet of whitespace only (or empty) that does not occur in the
    target, and raises nothing else. *)
Theorem string_similarity_error target snippet :
  (_string_similarity target snippet = Raise ZeroDivisionError ↔
   strip snippet = [] ∧ contains snippet target = false) ∧
  (∀ e, _string_similarity target snippet = Raise e → e = ZeroDivisionError).
Proof.
  unfold _string_similarity. destruct (contains snippet target) eqn:Hc.
  - split; [split; [done | by intros [_ ?]] | done].
  - split.
    + split.
      * intros H. split; [|done].
        destruct (strip snippet) eqn:Hs; [done|].
        assert (strip snippet ≠ []) as Hne by (by rewrite Hs).
        apply tokens_nonempty in Hne.
        destruct (size (tokens snippet)); [done | discriminate].
      * intros [Hs _]. by rewrite (tokens_blank _ Hs).
    + intros e. destruct (size (tokens snippet)); simpl; [|done].
      by intros [= <-].
Qed.

Lemma ratio_one a b : b ≠ 0 → (Z.of_nat a # Pos.of_nat b == 1)%Q ↔ a = b.
Proof.
  intros Hb. destruct b as [|b]; [done|].
  unfold Qeq. cbn [Qnum Qden]. rewrite Zpos_of_nat_S. lia.
Qed.

(** X8: where it returns a score, [_string_similarity] returns 1.0
    exactly when the snippet occurs verbatim in the target or every
    whitespace-separated token of the snippet is a token of the target,
    in whatever order. *)
Theorem string_similarity_full target snippet q :
  _string_similarity target snippet = Ok q →
  (q == 1)%Q ↔
  contains snippet target = true ∨ tokens snippet ⊆ tokens target.
Proof.
  unfold _string_similarity. destruct (contains snippet target) eqn:Hc.
  - intros [= <-]. split; [by left | reflexivity].
  - destruct (size (tokens snippet)) as [|n] eqn:Hsize; [done|].
    cbn [py_div]. intros [= <-].
    rewrite ratio_one by done. rewrite <- Hsize. split.
    + intros Heq. right.
      assert (tokens snippet ∩ tokens target = tokens snippet) as Hin.
      { apply set_subseteq_size_eq; [apply intersection_subseteq_l | lia]. }
      rewrite <- Hin. apply intersection_subseteq_r.
    + intros [? | Hsub]; [done|]. f_equal.
      by apply subseteq_intersection_1_L.
Qed.

Lemma string_similarity_full_witness :
  (2 # 2 == 1)%Q ↔
  contains (py "b a") (py "a b") = true ∨ tokens (py "b a") ⊆ tokens (py "a b").
Proof.
  apply (string_similarity_full (py "a b") (py "b a") (2 # 2)%Q).
  vm_compute. reflexivity.
Defined.

Lemma walk_nonempty tree : length (walk tree) ≠ 0.
Proof. unfold walk. by destruct tree. Qed.

(** X9: [_ast_similarity] is 0.0 exactly when one of the two texts does
    not parse; two texts that parse have a positive score. *)
Theorem ast_similarity_zero h target snippet :
  (_ast_similarity h target snippet == 0)%Q ↔
  (∃ e, ast_parse h target = Raise e) ∨ (∃ e, ast_parse h snippet = Raise e).
Proof.
  unfold _ast_similarity.
  destruct (ast_parse h target) as [t|e]; [|split; [by left; eexists | done]].
  destruct (ast_parse h snippet) as [s|e]; [|split; [by right; eexists | done]].
  simpl. rewrite py_div_value by apply walk_nonempty. simpl.
  split.
  - intros H. exfalso. pose proof (walk_nonempty s) as Hs.
    unfold Qeq in H. cbn [Qnum Qden] in H. lia.
  - by intros [[e ?] | [e ?]].
Qed.

(** X10: [_keyword_match] is 1.0 exactly when both texts parse, the
    snippet has a name, and every name of the snippet is a name of the
    target. *)
Theorem keyword_match_full h target snippet :
  (_keyword_match h target snippet == 1)%Q ↔
  ∃ s t, ast_parse h snippet = Ok s ∧ ast_parse h target = Ok t ∧
         size (name_ids s) ≠ 0 ∧ name_ids s ⊆ name_ids t.
Proof.
  unfold _keyword_match.
  destruct (ast_parse h snippet) as [s|e]; [|split; [done | by intros (? & ? & ? & _)]].
  destruct (ast_parse h target) as [t|e]; [|split; [done | by intros (? & ? & _ & ? & _)]].
  cbn [bind].
  destruct (decide (size (name_ids s) = 0)) as [Hz | Hnz].
  - rewrite bool_decide_eq_true_2 by done. simpl.
    split; [done | by intros (? & ? & [= <-] & _ & ? & _)].
  - rewrite bool_decide_eq_false_2 by done.
    rewrite py_div_value by done. simpl. rewrite ratio_one by done. split.
    + intros Heq. exists s, t. repeat split; try done.
      assert (name_ids s ∩ name_ids t = name_ids s) as Hin.
      { apply set_subseteq_size_eq; [apply intersection_subseteq_l | lia]. }
      rewrite <- Hin. apply intersection_subseteq_r.
    + intros (s' & t' & [= <-] & [= <-] & _ & Hsub). f_equal.
      by apply subseteq_intersection_1_L.
Qed.

Lemma end_line_scan_hit last_lines target_lines offsets i :
  i ∈ offsets →
  existsb line_in (zip last_lines (drop i target_lines)) = true →
  (8 # 10 <= end_line_scan last_lines target_lines offsets)%Q.
Proof.
  induction offsets as [|j offsets IH]; intros Hi Hany;
    [by apply elem_of_nil in Hi|].
  simpl. destruct (forallb _ _); [lra|].
  destruct (existsb line_in (zip last_lines (drop j target_lines))) eqn:Hj; [lra|].
  apply elem_of_cons in Hi as [-> | Hi]; [congruence | by apply IH].
Qed.

Lemma line_in_same x : line_in (x, x) = true.
Proof. apply contains_refl. Qed.

(** The last lines of a text always find themselves in it. *)
Lemma end_line_match_self text :
  splitlines text ≠ [] →
  (8 # 10 <= _end_line_match text (last_n 3 (splitlines text)))%Q.
Proof.
  intros Hne. unfold _end_line_match, last_n.
  set (t := splitlines text) in *.
  apply (end_line_scan_hit _ _ _ (length t - 3)).
  - apply elem_of_seq. rewrite length_drop. lia.
  - destruct (drop (length t - 3) t) as [|x r] eqn:Hd.
    + apply (f_equal length) in Hd. rewrite length_drop in Hd.
      destruct t; [done | simpl in *; lia].
    + simpl. by rewrite line_in_same.
Qed.

(** X11: a text that parses, compared with itself, has first-line score
    1.0, string score 1.0, syntax-tree score 1.0, an end-line score of at
    least 0.8 and so a confidence of at least 0.86. *)
Theorem self_match_confidence h text tree :
  strip text ≠ [] →
  ast_parse h text = Ok tree →
  ∃ sc, _calculate_matching_scores h text text = Ok sc ∧
        first_line_match sc = 1%Q ∧
        string_match sc = 1%Q ∧
        (ast_similarity sc == 1)%Q ∧
        (8 # 10 <= end_line_match sc)%Q ∧
        (86 # 100 <= _calculate_confidence_score sc)%Q.
Proof.
  intros Hs Hparse. unfold _calculate_matching_scores.
  pose proof (strip_nonempty_lines _ Hs) as Hlines.
  destruct (splitlines text) as [|first rest] eqn:Hl; [done|].
  simpl. unfold _string_similarity. rewrite contains_refl. simpl.
  eexists. split; [done|]. cbn [first_line_match string_match ast_similarity
    end_line_match].
  assert (_first_line_match text (strip first) = 1%Q) as Hfl.
  { unfold _first_line_match. rewrite Hl. simpl.
    by rewrite bool_decide_eq_true_2. }
  assert (_ast_similarity h text text == 1)%Q as Hast.
  { rewrite (ast_similarity_value h text text tree tree) by done.
    apply ratio_one; [apply walk_nonempty | done]. }
  assert (8 # 10 <= _end_line_match text (last_n 3 (first :: rest)))%Q as Hel.
  { rewrite <- Hl. apply end_line_match_self. by rewrite Hl. }
  pose proof (keyword_match_range h text text) as Hkw.
  split; [done|]. split; [done|]. split; [done|]. split; [done|].
  rewrite confidence_sum.
  cbn [first_line_match string_match ast_similarity keyword_match end_line_match].
  rewrite Hfl, Hast. lra.
Qed.

Lemma self_match_confidence_witness :
  ∃ sc, _calculate_matching_scores Cases.host Cases.code_x_plus_1
          Cases.code_x_plus_1 = Ok sc ∧
        first_line_match sc = 1%Q ∧
        string_match sc = 1%Q ∧
        (ast_similarity sc == 1)%Q ∧
        (8 # 10 <= end_line_match sc)%Q ∧
        (86 # 100 <= _calculate_confidence_score sc)%Q.
Proof.
  apply (self_match_confidence Cases.host Cases.code_x_plus_1
           Cases.tree_x_plus_1).
  - vm_compute. discriminate.
  - reflexivity.
Defined.

(** *** Where a snippet is placed *)

Lemma drop_cons_inv {A} (l : list A) i x r :
  drop i l = x :: r → l !! i = Some x ∧ drop (S i) l = r.
Proof.
  revert i. induction l as [|y l IH]; intros [|i]; simpl; try done.
  - intros [= -> ->]. by rewrite drop_0.
  - apply IH.
Qed.

Lemma best_match_scan_placed target fl sl lines :
  ∀ rest i best,
    drop i lines = rest →
    unplaced best ∨ placed fl lines (length sl) best →
    let r := best_match_scan target fl sl i rest best in
    unplaced r ∨ placed fl lines (length sl) r.
Proof.
  induction rest as [|line rest IH]; intros i best Hdrop Hbest; simpl; [done|].
  apply drop_cons_inv in Hdrop as [Hi Hdrop].
  apply IH; [done|].
  destruct (contains fl (strip line)) eqn:Hc; [|done].
  destruct (Qgtb _ _); [|done].
  right. exists i, line. simpl. repeat split; try done.
  apply match_score_ge_1, end_line_match_range.
Qed.

(** What [_find_best_match] can return. *)
Lemma find_best_match_cases target snippet s e :
  _find_best_match target snippet = Ok (s, e) →
  (s = (-1)%Z ∧ e = (-1)%Z) ∨
  ∃ first rest line,
    splitlines snippet = first :: rest ∧
    (1 ≤ s)%Z ∧
    splitlines target !! Z.to_nat (s - 1) = Some line ∧
    infix (strip first) line ∧
    e = (s + Z.of_nat (length (first :: rest)) - 1)%Z.
Proof.
  unfold _find_best_match.
  destruct (splitlines snippet) as [|first rest] eqn:Hl; [done|].
  cbn [first_of bind].
  pose proof (best_match_scan_placed target (strip first) (first :: rest)
                (splitlines target) (splitlines target) 0
                (0%Q, (-1)%Z, (-1)%Z) (drop_0 _) (or_introl eq_refl)) as H.
  cbv zeta in H.
  destruct (best_match_scan _ _ _ _ _ _) as [[score bs] be].
  intros [= <- <-]. destruct H as [[= _ -> ->] | (i & line & Hi & Hc & Hs & He & _)].
  - by left.
  - right. simpl in Hs, He. exists first, rest, line.
    split; [done|]. split; [lia|].
    split; [by replace (Z.to_nat (bs - 1)) with i by lia|].
    split; [by apply contains_strip_iff | simpl; lia].
Qed.

(** X12: [_find_best_match] returns either [(-1, -1)] or the bounds of a
    placement: the start is the number of a target line that holds the
    stripped first line of the snippet, and the end is the start plus the
    number of snippet lines minus one, whether or not the target has that
    many lines. *)
Theorem find_best_match_placement target snippet s e :
  _find_best_match target snippet = Ok (s, e) →
  (s = (-1)%Z ∧ e = (-1)%Z) ∨
  ∃ first rest line,
    splitlines snippet = first :: rest ∧
    (1 ≤ s)%Z ∧
    splitlines target !! Z.to_nat (s - 1) = Some line ∧
    infix (strip first) line ∧
    e = (s + Z.of_nat (length (first :: rest)) - 1)%Z.
Proof. apply find_best_match_cases. Qed.

Lemma find_best_match_placement_witness :
  ((1 = -1)%Z ∧ (3 = -1)%Z) ∨
  ∃ first rest line,
    splitlines (py "a" ++ [LF] ++ py "b" ++ [LF] ++ py "c") = first :: rest ∧
    (1 ≤ 1)%Z ∧
    splitlines (py "a") !! Z.to_nat (1 - 1) = Some line ∧
    infix (strip first) line ∧
    3%Z = (1 + Z.of_nat (length (first :: rest)) - 1)%Z.
Proof.
  apply (find_best_match_placement (py "a")
           (py "a" ++ [LF] ++ py "b" ++ [LF] ++ py "c") 1 3).
  vm_compute. reflexivity.
Defined.

(** *** The scan of a folder *)

Lemma blank_infix u s : infix u s → blank s → blank u.
Proof.
  intros (p & q & ->) H. apply blank_app in H as [_ H].
  by apply blank_app in H as [H _].
Qed.

(** The scores of a target that holds the snippet verbatim. *)
Lemma verbatim_scores h target snippet :
  snippet ≠ [] → infix snippet target →
  ∃ sc, _calculate_matching_scores h target snippet = Ok sc ∧
        (44 # 100 <= _calculate_confidence_score sc)%Q.
Proof.
  intros Hne Hin. unfold _calculate_matching_scores.
  destruct (splitlines snippet) as [|first rest] eqn:Hlines.
  { by apply splitlines_nil in Hlines. }
  cbn [first_of bind]. unfold _string_similarity.
  rewrite (proj2 (contains_spec _ _) Hin). cbn [bind].
  eexists. split; [done|].
  destruct (verbatim_first_line target snippet first rest) as (l & Hl & Hc); [done..|].
  pose proof (first_line_scan_found _ _ _ Hl Hc) as Hfl.
  pose proof (ast_similarity_nonneg h target snippet).
  pose proof (keyword_match_range h target snippet).
  pose proof (end_line_match_range target (last_n 3 (first :: rest))).
  rewrite confidence_sum. unfold _first_line_match.
  cbn [first_line_match string_match ast_similarity keyword_match end_line_match].
  lra.
Qed.

Lemma join_nil_inv parts :
  join [LF] parts = [] → parts = [] ∨ parts = [[]].
Proof.
  destruct parts as [|x [|y r]]; simpl; [by left | |].
  - intros ->. by right.
  - intros H. apply app_eq_nil in H as [_ H]. done.
Qed.

(** The last five lines of a snippet that is not blank, joined, have a
    first line again. *)
Lemma last_lines_have_first snippet :
  strip snippet ≠ [] →
  splitlines (join [LF] (last_n 5 (splitlines snippet))) ≠ [].
Proof.
  intros Hs Hnil. apply splitlines_nil in Hnil.
  pose proof (strip_nonempty_lines _ Hs) as Hlines.
  unfold last_n in Hnil.
  set (l := splitlines snippet) in *.
  assert (drop (length l - 5) l = [[]] → False) as Hone.
  { intros Hd. apply Hs. apply strip_blank, lines_blank. fold l.
    destruct (decide (length l ≤ 5)) as [Hle | Hgt].
    - replace (length l - 5) with 0 in Hd by lia. rewrite drop_0 in Hd.
      rewrite Hd. by repeat constructor.
    - apply (f_equal length) in Hd. rewrite length_drop in Hd. simpl in Hd. lia. }
  destruct (join_nil_inv _ Hnil) as [Hd | Hd].
  - apply (f_equal length) in Hd. rewrite length_drop in Hd.
    destruct l; [done | simpl in Hd; lia].
  - by apply Hone.
Qed.

(** X13: a file that can be read and whose text holds the snippet
    verbatim is kept by the scan, with a start line and a confidence of
    at least 0.44, whether or not the file parses. *)
Theorem verbatim_file_kept h snippet py_file text mtime w :
  files w !! py_file = Some (File (Utf8 text) mtime) →
  strip snippet ≠ [] →
  infix snippet (universal_newlines text) →
  ∃ p w', scan_file h snippet py_file w = (Ok (Some p), w') ∧
          file_path p = py_file ∧
          (1 ≤ start_line p)%Z ∧
          (44 # 100 <= confidence p)%Q.
Proof.
  intros Hfile Hs Hin.
  assert (snippet ≠ []) as Hne by (by intros ->).
  set (target := universal_newlines text) in *.
  assert (strip target ≠ []) as Ht.
  { intros Hb. apply Hs. apply strip_blank. eapply blank_infix; [exact Hin|].
    by apply strip_blank. }
  destruct (verbatim_scores h target snippet Hne Hin) as (sc & Hsc & Hconf).
  pose proof (strip_nonempty_lines _ Hs) as Hlines.
  destruct (splitlines snippet) as [|first rest] eqn:Hl; [done|].
  destruct (verbatim_first_line target snippet first rest Hne Hin Hl)
    as (line & Hline & Hc).
  pose proof (best_match_scan_some target (strip first) (first :: rest) 0
                (splitlines target) (0%Q, (-1)%Z, (-1)%Z) line
                (or_introl eq_refl) Hline Hc) as (_ & Hstart & _).
  pose proof (last_lines_have_first snippet Hs) as Hlast.
  rewrite Hl in Hlast.
  unfold scan_file, mbind, lift, ret, read_text. rewrite Hfile. fold target.
  destruct (strip target) as [|c r] eqn:Hst; [done|].
  rewrite Hsc.
  rewrite (proj2 (Qgtb_true _ _)) by lra.
  unfold _find_best_match. rewrite Hl. cbn [first_of bind].
  destruct (splitlines (join [LF] (last_n 5 (first :: rest)))) as [|f5 r5] eqn:H5;
    [done|].
  cbn [first_of bind fst snd].
  rewrite bool_decide_eq_true_2 by lia.
  eexists _, _. split; [reflexivity|]. cbn [file_path start_line confidence].
  split; [done|]. split; [lia | done].
Qed.

Lemma verbatim_file_kept_witness :
  ∃ p w', scan_file Cases.host Cases.code_x (py "src/a.py") Cases.world_src
          = (Ok (Some p), w') ∧
          file_path p = py "src/a.py" ∧
          (1 ≤ start_line p)%Z ∧
          (44 # 100 <= confidence p)%Q.
Proof.
  apply (verbatim_file_kept Cases.host Cases.code_x (py "src/a.py")
           Cases.code_x 0 Cases.world_src).
  - vm_compute. reflexivity.
  - vm_compute. discriminate.
  - exists [], []. reflexivity.
Defined.

Lemma scan_file_world h snippet py_file w :
  (scan_file h snippet py_file w).2 = logged (OpRead py_file) w.
Proof.
  unfold scan_file, mbind, lift, ret, read_text.
  destruct (files w !! py_file) as [[[text|raw] m|names]|]; try done.
  destruct (strip _); [done|].
  destruct (_calculate_matching_scores _ _ _) as [sc|]; [|done].
  destruct (Qgtb _ _); [|done].
  destruct (_find_best_match _ snippet) as [m1|]; [|done].
  destruct (_find_best_match _ _) as [m2|]; [|done].
  by destruct (bool_decide _).
Qed.

Lemma scan_files_world h snippet python_files :
  ∀ placements w,
    (scan_files h snippet python_files placements w).2
    = {| files := files w; clock := clock w;
         log := log w ++ map OpRead python_files; faults := faults w |}.
Proof.
  induction python_files as [|f rest IH]; intros placements w; simpl.
  - rewrite app_nil_r. by destruct w.
  - unfold mbind, try_except.
    pose proof (scan_file_world h snippet f w) as Hw.
    destruct (scan_file h snippet f w) as [[found|e] w1]; simpl in Hw; subst w1.
    + rewrite IH. simpl. by rewrite <- app_assoc.
    + unfold ret. rewrite IH. simpl. by rewrite <- app_assoc.
Qed.

Lemma check_folder_world h folder snippet w r w' :
  check_folder_for_snippet h folder snippet w = (r, w') →
  w' = logged (OpExists folder) w ∨
  w' = logged (OpListdir folder) (logged (OpExists folder) w) ∨
  ∃ names, files w !! folder = Some (Dir names) ∧
           w' = {| files := files w; clock := clock w;
                   log := log w ++ scan_ops folder names;
                   faults := faults w |}.
Proof.
  unfold check_folder_for_snippet, mbind at 1, path_exists.
  destruct (bool_decide _); simpl; [|intros [= _ <-]; by left].
  destruct (strip snippet); [intros [= _ <-]; by left|].
  destruct (ast_parse h snippet) as [tree|[]]; try (intros [= _ <-]; by left).
  unfold mbind at 1, listdir. simpl.
  destruct (files w !! folder) as [[|names]|] eqn:Hdir;
    [intros [= _ <-]; right; by left | | intros [= _ <-]; right; by left].
  unfold mbind, ret.
  pose proof (scan_files_world h snippet
                (map (path_join folder)
                     (filter (λ f, endswith f (py ".py") = true) names)) []
                (logged (OpListdir folder) (logged (OpExists folder) w)))
    as Hw.
  destruct (scan_files _ _ _ _ _) as [[placements|e] w1]; simpl in Hw; subst w1;
    intros [= _ <-]; right; right; exists names; (split; [done|]);
    unfold scan_ops; simpl; by rewrite <- !app_assoc.
Qed.

(** X14: [check_folder_for_snippet] only reads: whatever it returns or
    raises, the files and their stamps are as before, and it has tested
    the folder, then at most listed it, then at most read each listed
    name that ends in [.py], once, in the order of the listing. *)
Theorem check_folder_reads_only h folder snippet w :
  let w' := (check_folder_for_snippet h folder snippet w).2 in
  files w' = files w ∧ clock w' = clock w ∧
  (log w' = log w ++ [OpExists folder] ∨
   log w' = log w ++ [OpExists folder; OpListdir folder] ∨
   ∃ names, files w !! folder = Some (Dir names) ∧
            log w' = log w ++ scan_ops folder names).
Proof.
  destruct (check_folder_for_snippet h folder snippet w) as [r w1] eqn:Hrun.
  apply check_folder_world in Hrun. simpl.
  destruct Hrun as [-> | [-> | (names & Hd & ->)]]; simpl.
  - split; [done|]. split; [done|]. by left.
  - split; [done|]. split; [done|]. right. left. by rewrite <- app_assoc.
  - split; [done|]. split; [done|]. right. right. by exists names.
Qed.

(** The bounds of a placement that the scan of a file hands over. *)
Lemma scan_file_bounds h snippet py_file w p w' :
  scan_file h snippet py_file w = (Ok (Some p), w') →
  (1 ≤ start_line p ≤ end_line p)%Z.
Proof.
  unfold scan_file, mbind, lift, ret, read_text.
  destruct (files w !! py_file) as [[[text|raw] m|names]|]; try done.
  destruct (strip _); [done|].
  destruct (_calculate_matching_scores _ _ _) as [sc|]; [|done].
  destruct (Qgtb _ _); [|done].
  destruct (_find_best_match _ snippet) as [[s e]|] eqn:Hm; [|done].
  destruct (_find_best_match _ (join _ _)) as [[s5 e5]|]; [|done].
  cbn [fst snd].
  destruct (bool_decide (s ≠ (-1)%Z)) eqn:Hstart; [|done].
  apply bool_decide_eq_true in Hstart.
  intros [= <- _]. cbn [start_line end_line].
  apply find_best_match_cases in Hm
    as [[? _] | (first & rest & line & _ & H1 & _ & _ & He)]; [done|].
  simpl in He. destruct (e <? e5)%Z eqn:Hlt; [apply Z.ltb_lt in Hlt|]; lia.
Qed.

Lemma scan_files_forall h snippet (P : Placement → Prop) :
  (∀ f w p w', scan_file h snippet f w = (Ok (Some p), w') → P p) →
  ∀ python_files placements w r w',
    Forall P placements →
    scan_files h snippet python_files placements w = (Ok r, w') →
    Forall P r.
Proof.
  intros HP. induction python_files as [|f rest IH];
    intros placements w r w' Hpl; simpl.
  - by intros [= <- _].
  - unfold mbind at 1, try_except.
    destruct (scan_file h snippet f w) as [[[p|]|e] w1] eqn:Hscan; simpl.
    + apply IH. apply Forall_app. split; [done|].
      apply Forall_singleton. by eapply HP.
    + apply IH. by rewrite app_nil_r.
    + apply IH. by rewrite app_nil_r.
Qed.

(** X15: every placement that [check_folder_for_snippet] returns has
    [1 <= start_line <= end_line]. *)
Theorem returned_bounds_ordered h folder snippet w ranked w' :
  check_folder_for_snippet h folder snippet w = (Ok ranked, w') →
  Forall (λ p, (1 ≤ start_line p ≤ end_line p)%Z) ranked.
Proof.
  unfold check_folder_for_snippet, mbind at 1, path_exists.
  destruct (bool_decide _); simpl; [|done].
  destruct (strip snippet) eqn:Hs; [done|].
  destruct (ast_parse h snippet) as [tree|[]]; try done.
  unfold mbind at 1, listdir. simpl.
  destruct (files w !! folder) as [[|names]|]; try done.
  unfold mbind, ret.
  destruct (scan_files _ _ _ _ _) as [[placements|e] w1] eqn:Hscan; [|done].
  intros [= <- _]. apply Forall_take. rewrite sorted_desc_perm.
  eapply (scan_files_forall h snippet); [|constructor|exact Hscan].
  intros f w0 p w0'. apply scan_file_bounds.
Qed.

Lemma returned_bounds_ordered_witness :
  Forall (λ p, (1 ≤ start_line p ≤ end_line p)%Z)
    (take 2 (sorted_desc
       [ {| file_path := py "src/a.py"; confidence := (400000 # 400000)%Q;
            matched_code := py "x"; start_line := 1; end_line := 1 |};
         {| file_path := py "src/d.py"; confidence := (400000 # 400000)%Q;
            matched_code := py "x"; start_line := 1; end_line := 1 |} ])).
Proof.
  apply (returned_bounds_ordered Cases.host (py "src") Cases.code_x
           Cases.world_src _
           (check_folder_for_snippet Cases.host (py "src") Cases.code_x
              Cases.world_src).2).
  vm_compute. reflexivity.
Defined.

(** *** Re-indentation *)

(** What the loop makes of one line: a blank line is kept, any other
    line keeps a non-empty end of itself behind the target indentation. *)
Lemma adjust_line_shape ti si line :
  (strip line = [] → adjust_line ti si line = line) ∧
  (strip line ≠ [] →
   ∃ dropped kept, line = dropped ++ kept ∧ kept ≠ [] ∧
                   adjust_line ti si line = ti ++ kept).
Proof.
  unfold adjust_line. destruct (strip line) eqn:Hs; [done|].
  split; [done|]. intros _.
  destruct (length si <? length line) eqn:Hlen.
  - exists (take (length si) line), (drop (length si) line).
    rewrite take_drop. split; [done|]. split; [|done].
    apply Nat.ltb_lt in Hlen. intros Hd.
    apply (f_equal length) in Hd. rewrite length_drop in Hd. simpl in Hd. lia.
  - destruct (lstrip_decomp line) as (ws & Hl & Hws).
    exists ws, (lstrip line). split; [done|]. split; [|done].
    intros Hnil. rewrite Hnil, app_nil_r in Hl. subst line.
    apply strip_blank in Hws. congruence.
Qed.

(** X17: a non-blank line that starts with the indentation of the
    snippet's first line comes out with that indentation replaced by the
    target indentation, and the rest of the line, deeper indentation
    included, as it was. *)
Theorem reindent_keeps_relative_indentation snippet ti i line r :
  let si := _get_snippet_indentation snippet in
  splitlines snippet !! i = Some line →
  strip line ≠ [] →
  line = si ++ r →
  adjusted_lines snippet ti si !! i = Some (ti ++ r).
Proof.
  intros si Hi Hline Hr. unfold adjusted_lines.
  rewrite lookup_map, Hi. simpl. f_equal. unfold adjust_line.
  destruct (strip line) eqn:Hs; [done|].
  assert (r ≠ []) as Hne.
  { intros ->. rewrite app_nil_r in Hr. subst line.
    pose proof (snippet_indentation_blank snippet) as Hb.
    apply strip_blank in Hb. fold si in Hb. congruence. }
  assert ((length si <? length line) = true) as ->.
  { apply Nat.ltb_lt. rewrite Hr, length_app. destruct r; [done | simpl; lia]. }
  by rewrite Hr, drop_app_length.
Qed.

Lemma reindent_keeps_relative_indentation_witness :
  adjusted_lines (py " a" ++ [LF] ++ py "   b") (py "    ")
    (_get_snippet_indentation (py " a" ++ [LF] ++ py "   b")) !! 1
  = Some (py "    " ++ py "  b").
Proof.
  apply (reindent_keeps_relative_indentation (py " a" ++ [LF] ++ py "   b")
           (py "    ") 1 (py "   b") (py "  b")).
  - reflexivity.
  - vm_compute. discriminate.
  - reflexivity.
Defined.

(** *** Lines and their text *)

Lemma splitlines_line l s :
  nobreak l → splitlines (l ++ LF :: s) = l :: splitlines s.
Proof.
  induction 1 as [|c l Hc _ IH]; simpl.
  - done.
  - rewrite Hc. by rewrite IH.
Qed.

Lemma splitlines_single l : nobreak l → l ≠ [] → splitlines l = [l].
Proof.
  induction 1 as [|c l Hc Hl IH]; [done|]. intros _. simpl. rewrite Hc.
  destruct l as [|d l]; [done|]. by rewrite IH.
Qed.

(** Lines joined by line feeds split into the same lines, unless the last
    one is empty. *)
Lemma splitlines_join ls :
  Forall nobreak ls → last ls ≠ Some [] → splitlines (join [LF] ls) = ls.
Proof.
  induction 1 as [|l ls Hl Hls IH]; [done|]. intros Hlast.
  destruct ls as [|l' ls'].
  - simpl. apply splitlines_single; [done|]. intros ->. by apply Hlast.
  - change (join [LF] (l :: l' :: ls')) with (l ++ LF :: join [LF] (l' :: ls')).
    rewrite splitlines_line by done. f_equal. by apply IH.
Qed.

Lemma last_map {A B} (f : A → B) (l : list A) :
  last (map f l) = option_map f (last l).
Proof.
  induction l as [|x l IH]; [done|]. destruct l as [|y l]; [done|].
  exact IH.
Qed.

(** X16: the text that [_adjust_snippet_indentation] returns has, for a
    target indentation without line boundary and a snippet whose last line
    is not empty, as many lines as the snippet: a blank line comes out as
    it is, and any other line comes out as the target indentation followed
    by what is left of the line once some leading characters are dropped.
    Empty lines at the end of the snippet are not covered: the text
    returned for [a] followed by two line feeds has one line, not two. *)
Theorem adjusted_lines_shape snippet ti si :
  nobreak ti →
  last (splitlines snippet) ≠ Some [] →
  let out := splitlines (_adjust_snippet_indentation snippet ti si) in
  length out = length (splitlines snippet) ∧
  ∀ i line, splitlines snippet !! i = Some line →
    ∃ o, out !! i = Some o ∧
         (strip line = [] → o = line) ∧
         (strip line ≠ [] →
          ∃ dropped kept, line = dropped ++ kept ∧ o = ti ++ kept).
Proof.
  intros Hti Hlast out.
  assert (out = adjusted_lines snippet ti si) as ->.
  { unfold out, _adjust_snippet_indentation, adjusted_lines.
    destruct (splitlines snippet) as [|first rest] eqn:Hlines.
    { by rewrite Hlines. }
    rewrite <- Hlines in *. clear first rest Hlines.
    apply splitlines_join.
    - apply Forall_map. pose proof (splitlines_nobreak snippet) as Hnb.
      eapply Forall_impl; [exact Hnb|]. intros line Hline. simpl.
      destruct (adjust_line_shape ti si line) as [Hblank Hother].
      destruct (decide (strip line = [])) as [Hs|Hs].
      + by rewrite Hblank.
      + destruct (Hother Hs) as (dropped & kept & Hl & _ & ->).
        apply Forall_app. split; [done|].
        rewrite Hl in Hline. by apply Forall_app in Hline as [_ ?].
    - rewrite last_map. destruct (last (splitlines snippet)) as [line|] eqn:El;
        [|done].
      simpl. intros [= Hnil].
      destruct (adjust_line_shape ti si line) as [Hblank Hother].
      destruct (decide (strip line = [])) as [Hs|Hs].
      + rewrite Hblank in Hnil by done. congruence.
      + destruct (Hother Hs) as (dropped & kept & _ & Hk & Heq).
        rewrite Heq in Hnil. by apply app_eq_nil in Hnil as [_ ?]. }
  unfold adjusted_lines. split; [apply length_map|].
  intros i line Hi. rewrite lookup_map, Hi. simpl. eexists. split; [done|].
  destruct (adjust_line_shape ti si line) as [Hblank Hother].
  split; [done|]. intros Hs.
  destruct (Hother Hs) as (dropped & kept & Hl & _ & Heq). by eauto.
Qed.

Lemma adjusted_lines_shape_witness :
  length (splitlines (_adjust_snippet_indentation
                        (py " a" ++ [LF] ++ py "   b") (py "    ") (py " ")))
  = length (splitlines (py " a" ++ [LF] ++ py "   b")) ∧
  ∀ i line, splitlines (py " a" ++ [LF] ++ py "   b") !! i = Some line →
    ∃ o, splitlines (_adjust_snippet_indentation
                       (py " a" ++ [LF] ++ py "   b") (py "    ") (py " "))
           !! i = Some o ∧
         (strip line = [] → o = line) ∧
         (strip line ≠ [] →
          ∃ dropped kept, line = dropped ++ kept ∧ o = py "    " ++ kept).
Proof.
  apply (adjusted_lines_shape (py " a" ++ [LF] ++ py "   b") (py "    ")
           (py " ")).
  - repeat constructor.
  - vm_compute. discriminate.
Defined.

(** *** Replacing a block of lines *)

Lemma slice_to_nonneg {A} (l : list A) k :
  (0 ≤ k)%Z → slice_to l k = take (Z.to_nat k) l.
Proof.
  intros Hk. unfold slice_to, slice_index.
  rewrite (proj2 (Z.ltb_ge k 0)) by done.
  destruct (decide (k ≤ Z.of_nat (length l))%Z).
  - f_equal. lia.
  - replace (Z.to_nat (Z.min (Z.max k 0) (Z.of_nat (length l))))
      with (length l) by lia.
    rewrite !take_ge; [done | lia | lia].
Qed.

Lemma slice_from_nonneg {A} (l : list A) k :
  (0 ≤ k)%Z → slice_from l k = drop (Z.to_nat k) l.
Proof.
  intros Hk. unfold slice_from, slice_index.
  rewrite (proj2 (Z.ltb_ge k 0)) by done.
  destruct (decide (k ≤ Z.of_nat (length l))%Z).
  - f_equal. lia.
  - replace (Z.to_nat (Z.min (Z.max k 0) (Z.of_nat (length l))))
      with (length l) by lia.
    rewrite !drop_ge; [done | lia | lia].
Qed.

Lemma index_nonneg {A} (l : list A) k x :
  (0 ≤ k)%Z → l !! Z.to_nat k = Some x → index l k = Ok x.
Proof.
  intros Hk Hx. unfold index.
  rewrite (proj2 (Z.ltb_ge k 0)) by done.
  rewrite (proj2 (Z.ltb_ge k 0)) by done. by rewrite Hx.
Qed.

Lemma block_indentation_at lines s line :
  (1 ≤ s)%Z → lines !! Z.to_nat (s - 1) = Some line →
  _get_block_indentation lines s = Ok (leading_ws line).
Proof.
  intros Hs Hline. unfold _get_block_indentation.
  apply lookup_lt_Some in Hline as Hlt.
  rewrite (proj2 (Z.ltb_lt _ _)) by lia.
  by rewrite (index_nonneg lines (s - 1) line) by (done || lia).
Qed.

(** The lines [calculate_updated_code] puts together for a start line
    that exists. *)
Lemma updated_lines_at existing snippet s e line :
  (1 ≤ s)%Z → (0 ≤ e)%Z →
  splitlines existing !! Z.to_nat (s - 1) = Some line →
  updated_lines existing snippet s e
  = Ok (take (Z.to_nat (s - 1)) (splitlines existing)
        ++ splitlines (_adjust_snippet_indentation snippet (leading_ws line)
                         (_get_snippet_indentation snippet))
        ++ drop (Z.to_nat e) (splitlines existing)).
Proof.
  intros Hs He Hline. unfold updated_lines.
  rewrite (block_indentation_at _ s line) by done. cbn [bind].
  by rewrite slice_to_nonneg, slice_from_nonneg by lia.
Qed.

(** X18: [calculate_updated_code] does not refuse the bounds
    [(-1, -1)] that stand for no match: on a text of fewer than two lines
    it raises [IndexError], on any other it replaces the last line but
    one, with the indentation of that line. *)
Theorem no_match_bounds_applied existing snippet :
  let lines := splitlines existing in
  (length lines < 2 →
   calculate_updated_code existing snippet (-1) (-1) = Raise IndexError) ∧
  (∀ line, lines !! (length lines - 2) = Some line → 2 ≤ length lines →
   updated_lines existing snippet (-1) (-1)
   = Ok (take (length lines - 2) lines
         ++ splitlines (_adjust_snippet_indentation snippet (leading_ws line)
                          (_get_snippet_indentation snippet))
         ++ drop (length lines - 1) lines)).
Proof.
  intros lines. split.
  - intros Hshort. unfold calculate_updated_code, updated_lines,
      _get_block_indentation, index. fold lines.
    rewrite (proj2 (Z.ltb_lt (-1 - 1) _)) by lia.
    rewrite (proj2 (Z.ltb_lt (-1 - 1) 0)) by lia.
    by rewrite (proj2 (Z.ltb_lt (-1 - 1 + Z.of_nat (length lines)) 0)) by lia.
  - intros line Hline Hlen. unfold updated_lines, _get_block_indentation, index.
    fold lines.
    rewrite (proj2 (Z.ltb_lt (-1 - 1) _)) by lia.
    rewrite (proj2 (Z.ltb_lt (-1 - 1) 0)) by lia.
    rewrite (proj2 (Z.ltb_ge (-1 - 1 + Z.of_nat (length lines)) 0)) by lia.
    replace (Z.to_nat (-1 - 1 + Z.of_nat (length lines)))
      with (length lines - 2) by lia.
    rewrite Hline. cbn [bind]. unfold slice_to, slice_from, slice_index.
    rewrite (proj2 (Z.ltb_lt (-1 - 1) 0)) by lia.
    rewrite (proj2 (Z.ltb_lt (-1) 0)) by lia.
    do 3 f_equal; f_equal; lia.
Qed.

(** X19: bounds that [_find_best_match] found in a text can always be
    applied to that text: [calculate_updated_code] does not raise, keeps
    the lines before the start, and drops the lines up to the end, which
    may lie after the last line. *)
Theorem found_bounds_apply target snippet s e new_snippet :
  _find_best_match target snippet = Ok (s, e) →
  s ≠ (-1)%Z →
  ∃ line,
    splitlines target !! Z.to_nat (s - 1) = Some line ∧
    updated_lines target new_snippet s e
    = Ok (take (Z.to_nat (s - 1)) (splitlines target)
          ++ splitlines (_adjust_snippet_indentation new_snippet
                           (leading_ws line)
                           (_get_snippet_indentation new_snippet))
          ++ drop (Z.to_nat e) (splitlines target)).
Proof.
  intros Hfound Hs.
  apply find_best_match_cases in Hfound
    as [[? _] | (first & rest & line & Hl & H1 & Hline & _ & He)]; [done|].
  exists line. split; [done|].
  apply updated_lines_at; [done | simpl in He; lia | done].
Qed.

Lemma found_bounds_apply_witness :
  ∃ line,
    splitlines (py "a") !! Z.to_nat (1 - 1) = Some line ∧
    updated_lines (py "a") (py "z") 1 3
    = Ok (take (Z.to_nat (1 - 1)) (splitlines (py "a"))
          ++ splitlines (_adjust_snippet_indentation (py "z")
                           (leading_ws line)
                           (_get_snippet_indentation (py "z")))
          ++ drop (Z.to_nat 3) (splitlines (py "a"))).
Proof.
  apply (found_bounds_apply (py "a")
           (py "a" ++ [LF] ++ py "b" ++ [LF] ++ py "c") 1 3 (py "z")).
  - vm_compute. reflexivity.
  - discriminate.
Defined.

Lemma adjust_line_same si line :
  blank si →
  (strip line ≠ [] → ∃ r, line = si ++ r) →
  adjust_line si si line = line.
Proof.
  intros Hsi Hline. destruct (strip line) eqn:Hs.
  - unfold adjust_line. by rewrite Hs.
  - destruct Hline as [r Hr]; [done|].
    eapply adjust_line_prefix; [done | by rewrite Hs | done].
Qed.

Lemma map_id_on {A} (f : A → A) (l : list A) :
  (∀ x, x ∈ l → f x = x) → map f l = l.
Proof.
  induction l as [|x l IH]; intros H; simpl; [done|].
  rewrite H by left. f_equal. apply IH. intros y Hy. apply H. by right.
Qed.

Lemma Forall_sublist_drop_take {A} (P : A → Prop) (l : list A) i n :
  Forall P l → Forall P (take n (drop i l)).
Proof. intros H. by apply Forall_take, Forall_drop. Qed.

(** X20: putting back the very lines that stand between the bounds
    changes nothing.  If the last of these lines is not empty and each
    of them that is not blank starts with the indentation of the first,
    [calculate_updated_code] returns the lines of the text, joined by
    line feeds. *)
Theorem same_block_is_identity existing s e :
  let lines := splitlines existing in
  let block := slice lines (s - 1) e in
  (1 ≤ s ≤ e)%Z → (e ≤ Z.of_nat (length lines))%Z →
  last block ≠ Some [] →
  (∀ line, line ∈ block → strip line ≠ [] →
           ∃ r, line = _get_snippet_indentation (join [LF] block) ++ r) →
  calculate_updated_code existing (join [LF] block) s e
  = Ok (join [LF] lines).
Proof.
  intros lines block Hse He Hlast Hind.
  assert (block = take (Z.to_nat e - Z.to_nat (s - 1))
                       (drop (Z.to_nat (s - 1)) lines)) as Hblock.
  { unfold block, slice, slice_index.
    rewrite (proj2 (Z.ltb_ge (s - 1) 0)) by lia.
    rewrite (proj2 (Z.ltb_ge e 0)) by lia.
    f_equal; [|f_equal]; lia. }
  assert (Forall nobreak block) as Hnb.
  { rewrite Hblock. apply Forall_sublist_drop_take, splitlines_nobreak. }
  assert (splitlines (join [LF] block) = block) as Hsplit
    by (by apply splitlines_join).
  destruct (lines !! Z.to_nat (s - 1)) as [line|] eqn:Hline.
  2: { apply lookup_ge_None in Hline. lia. }
  assert (∃ rest, block = line :: rest) as [rest Hhead].
  { rewrite Hblock.
    rewrite (drop_S _ _ _ Hline).
    destruct (Z.to_nat e - Z.to_nat (s - 1)) as [|n] eqn:Hn; [lia|].
    simpl. by eexists. }
  assert (_get_snippet_indentation (join [LF] block) = leading_ws line) as Hsi.
  { unfold _get_snippet_indentation. by rewrite Hsplit, Hhead. }
  unfold calculate_updated_code.
  rewrite (updated_lines_at existing _ s e line) by (done || lia).
  fold lines. cbn [bind]. do 2 f_equal.
  assert (_adjust_snippet_indentation (join [LF] block) (leading_ws line)
            (_get_snippet_indentation (join [LF] block)) = join [LF] block)
    as ->.
  { unfold _adjust_snippet_indentation, adjusted_lines.
    rewrite Hsplit. rewrite Hsi. rewrite Hhead at 1.
    rewrite map_id_on; [done|].
    intros x Hx. apply adjust_line_same.
    - apply leading_ws_decomp.
    - intros Hxb. rewrite <- Hsi. by apply Hind. }
  rewrite Hsplit, Hblock.
  rewrite <- (take_drop (Z.to_nat (s - 1)) lines) at 4.
  f_equal.
  rewrite <- (take_drop (Z.to_nat e - Z.to_nat (s - 1))
                (drop (Z.to_nat (s - 1)) lines)) at 2.
  f_equal. rewrite drop_drop. f_equal. lia.
Qed.

Lemma same_block_is_identity_witness :
  calculate_updated_code (py "a" ++ [LF] ++ py " b" ++ [LF] ++ py "  c")
    (join [LF] (slice (splitlines (py "a" ++ [LF] ++ py " b" ++ [LF] ++ py "  c"))
                      (2 - 1) 3)) 2 3
  = Ok (join [LF] (splitlines (py "a" ++ [LF] ++ py " b" ++ [LF] ++ py "  c"))).
Proof.
  apply (same_block_is_identity (py "a" ++ [LF] ++ py " b" ++ [LF] ++ py "  c")
           2 3).
  - lia.
  - vm_compute. discriminate.
  - vm_compute. discriminate.
  - intros line Hl Hnb. vm_compute in Hl.
    apply elem_of_cons in Hl as [-> | Hl]; [by exists (py "b")|].
    apply list_elem_of_singleton in Hl as ->. by exists (py " c").
Defined.

(** *** The backup path *)

Lemma splitext_concat p : (splitext p).1 ++ (splitext p).2 = p.
Proof.
  unfold splitext. destruct (_ <? _)%Z; [|apply app_nil_r].
  destruct (existsb _ _); [apply take_drop | apply app_nil_r].
Qed.

(** X21: a file is its own backup path exactly when its extension, as
    [os.path.splitext] gives it, is [.old]. *)
Theorem own_backup_path p :
  backup_path_of p = p ↔ (splitext p).2 = py ".old".
Proof.
  unfold backup_path_of. rewrite <- (splitext_concat p) at 2. split.
  - intros H. by apply app_inv_head in H.
  - by intros ->.
Qed.

Lemma rfind_from_app c a b i f :
  rfind_from c (a ++ b) i f
  = rfind_from c b (i + Z.of_nat (length a)) (rfind_from c a i f).
Proof.
  revert i f. induction a as [|d a IH]; intros i f; simpl.
  - f_equal. lia.
  - rewrite IH. f_equal. lia.
Qed.

Lemma rfind_from_absent c s i f : c ∉ s → rfind_from c s i f = f.
Proof.
  revert i f. induction s as [|d s IH]; intros i f Hc; simpl; [done|].
  apply not_elem_of_cons in Hc as [Hd Hs].
  rewrite IH by done.
  destruct (Ascii.eqb d c) eqn:E; [|done].
  apply Ascii.eqb_eq in E. congruence.
Qed.

Lemma rfind_sep_dir dir :
  dir = [] ∨ (∃ d, dir = d ++ py "/") →
  (rfind "/"%char dir + 1)%Z = Z.of_nat (length dir).
Proof.
  intros [-> | [d ->]]; [done|]. unfold rfind.
  rewrite rfind_from_app. simpl. rewrite length_app. simpl. lia.
Qed.

Lemma splitext_simple dir stem ext :
  dir = [] ∨ (∃ d, dir = d ++ py "/") →
  stem ≠ [] → "/"%char ∉ stem → "."%char ∉ stem →
  "/"%char ∉ ext → "."%char ∉ ext →
  splitext (dir ++ stem ++ py "." ++ ext) = (dir ++ stem, py "." ++ ext).
Proof.
  intros Hdir Hstem Hs1 Hs2 He1 He2.
  set (p := dir ++ stem ++ py "." ++ ext).
  assert (rfind "."%char p = Z.of_nat (length (dir ++ stem))) as Hdot.
  { unfold rfind, p. rewrite (app_assoc dir stem), rfind_from_app.
    change (py "." ++ ext) with ("."%char :: ext). simpl.
    rewrite rfind_from_absent by done. lia. }
  assert (rfind "/"%char p = rfind "/"%char dir) as Hsep.
  { unfold rfind, p. rewrite rfind_from_app.
    rewrite rfind_from_app. rewrite (rfind_from_absent _ stem) by done.
    change (py "." ++ ext) with ("."%char :: ext). simpl.
    by rewrite rfind_from_absent by done. }
  pose proof (rfind_sep_dir dir Hdir) as Hd.
  unfold splitext. fold p. rewrite Hdot, Hsep.
  rewrite length_app in *.
  destruct stem as [|c stem]; [done|].
  rewrite (proj2 (Z.ltb_lt _ _)) by (simpl; lia).
  assert (slice p (rfind "/"%char dir + 1)
            (Z.of_nat (length dir + length (c :: stem))) = c :: stem) as ->.
  { rewrite Hd. unfold slice, slice_index.
    rewrite (proj2 (Z.ltb_ge _ 0)) by lia.
    rewrite (proj2 (Z.ltb_ge _ 0)) by lia.
    assert (length p = length dir + length (c :: stem) + S (length ext)) as Hp.
    { unfold p. rewrite !length_app. simpl. lia. }
    replace (Z.to_nat (Z.min (Z.max (Z.of_nat (length dir)) 0)
                         (Z.of_nat (length p)))) with (length dir) by lia.
    replace (Z.to_nat (Z.min (Z.max (Z.of_nat (length dir + length (c :: stem))) 0)
                         (Z.of_nat (length p)))) with (length dir + length (c :: stem))
      by lia.
    unfold p. rewrite drop_app_length.
    replace (length dir + length (c :: stem) - length dir)
      with (length (c :: stem)) by lia.
    by rewrite take_app_length. }
  assert (negb (Ascii.eqb c ".") = true) as Hc.
  { apply negb_true_iff. destruct (Ascii.eqb c ".") eqn:E; [|done].
    apply Ascii.eqb_eq in E. subst c. destruct Hs2. left. }
  cbn [existsb]. rewrite Hc. cbn [orb].
  rewrite Nat2Z.id. unfold p. rewrite (app_assoc dir (c :: stem)).
  f_equal.
  - rewrite <- length_app. by rewrite take_app_length.
  - rewrite <- length_app. by rewrite drop_app_length.
Qed.

(** X22: for a file name of a stem, a dot and an extension, the backup
    path is the stem followed by [.old], whatever the extension: files
    of one directory that differ by their extension alone have the same
    backup path. *)
Theorem backup_path_ignores_extension dir stem ext :
  dir = [] ∨ (∃ d, dir = d ++ py "/") →
  stem ≠ [] → "/"%char ∉ stem → "."%char ∉ stem →
  "/"%char ∉ ext → "."%char ∉ ext →
  backup_path_of (dir ++ stem ++ py "." ++ ext) = dir ++ stem ++ py ".old".
Proof.
  intros. unfold backup_path_of. rewrite splitext_simple by done.
  simpl. by rewrite <- app_assoc.
Qed.

Lemma backup_path_ignores_extension_witness :
  backup_path_of (py "src/" ++ py "a" ++ py "." ++ py "txt")
  = py "src/" ++ py "a" ++ py ".old".
Proof.
  apply (backup_path_ignores_extension (py "src/") (py "a") (py "txt")).
  - right. by exists (py "src").
  - discriminate.
  - apply (bool_decide_eq_false_1 (_ ∈ _)). reflexivity.
  - apply (bool_decide_eq_false_1 (_ ∈ _)). reflexivity.
  - apply (bool_decide_eq_false_1 (_ ∈ _)). reflexivity.
  - apply (bool_decide_eq_false_1 (_ ∈ _)). reflexivity.
Defined.

(** *** Backup, overwrite and restore *)

Lemma contains_char c (s : str) : contains [c] s = true ↔ c ∈ s.
Proof.
  rewrite contains_spec. split.
  - intros (pre & post & ->). apply elem_of_app. right. by left.
  - intros (pre & post & ->)%list_elem_of_split. by exists pre, post.
Qed.

Lemma basename_no_sep p : "/"%char ∉ basename p.
Proof.
  induction p as [|c p IH]; [by intros ?%elem_of_nil|].
  cbn [basename]. destruct (contains (py "/") (c :: p)) eqn:Hc; [done|].
  intros Hin. apply (contains_char "/"%char) in Hin.
  change (py "/") with ["/"%char] in Hc. congruence.
Qed.

Lemma dirname_head_sep u x :
  "/"%char ∉ x → dirname_head (u ++ "/"%char :: x) = u ++ ["/"%char].
Proof.
  intros Hx. induction u as [|c u IH].
  - cbn [app dirname_head].
    assert (contains (py "/") ("/"%char :: x) = true) as ->.
    { apply (contains_char "/"%char). by left. }
    f_equal. destruct x as [|d x]; [done|]. cbn [dirname_head].
    assert (contains (py "/") (d :: x) = false) as ->; [|done].
    apply not_true_is_false. by intros ?%(contains_char "/"%char).
  - cbn [app dirname_head].
    assert (contains (py "/") (c :: u ++ "/"%char :: x) = true) as ->.
    { apply (contains_char "/"%char). right. apply elem_of_app. right. by left. }
    by rewrite IH.
Qed.

(** A name put into a directory has that directory as its parent. *)
Lemma parent_join a x c a' :
  rev a = c :: a' → c ≠ "/"%char → "/"%char ∉ x →
  parent (path_join a x) = a.
Proof.
  intros Ha Hc Hx.
  assert (a = rev a' ++ [c]) as Ha'.
  { rewrite <- (rev_involutive a), Ha. done. }
  assert (Ascii.eqb c "/"%char = false) as Hcb by by apply Ascii.eqb_neq.
  assert (path_join a x = a ++ "/"%char :: x) as ->.
  { unfold path_join.
    assert (startswith x (py "/") = false) as ->.
    { change (py "/") with ["/"%char].
      destruct x as [|d x]; [done|]. cbn [startswith].
      destruct (Ascii.eqb "/"%char d) eqn:Hd; [|done].
      apply Ascii.eqb_eq in Hd. subst d. destruct Hx. by left. }
    destruct a as [|a0 a1] eqn:Ea; [by destruct a'|].
    rewrite Ha. change (py "/") with ["/"%char]. cbn [startswith].
    rewrite Ascii.eqb_sym, Hcb. done. }
  unfold parent, dirname. rewrite dirname_head_sep by done.
  assert (forallb (Ascii.eqb "/"%char) (a ++ ["/"%char]) = false) as ->.
  { rewrite Ha'. rewrite !forallb_app. cbn [forallb].
    rewrite (Ascii.eqb_sym "/"%char c), Hcb. cbn [andb].
    by rewrite andb_false_r. }
  rewrite rev_app_distr. cbn [rev app drop_slashes]. rewrite Ha.
  rewrite Ascii.eqb_refl. cbn [drop_slashes]. rewrite Hcb.
  rewrite <- Ha, rev_involutive.
  rewrite Ha'. by destruct (rev a').
Qed.

Lemma parent_in_backup_dir p :
  parent (path_join (backup_path_of p) (basename p)) = backup_path_of p.
Proof.
  eapply (parent_join _ _ "d"%char).
  - unfold backup_path_of. rewrite rev_app_distr. reflexivity.
  - done.
  - apply basename_no_sep.
Qed.

(** What a write leaves behind. *)
Lemma store_inv p d stamp w r w' :
  store p d stamp w = (r, w') →
  (w' = w ∧ ∃ e, r = Raise e) ∨
  ∃ fs, slot p (files w) = Ok fs ∧ faults w' = faults w ∧ log w' = log w ∧
        ((∃ n, r = Raise OSError ∧ faults w !! p = Some (Interrupted n) ∧
               files w' = <[p := File (take_data n d) (clock w)]> fs ∧
               clock w' = S (clock w)) ∨
         (r = Ok tt ∧ faults w !! p = None ∧
          ((∃ m, stamp = Some m ∧ files w' = <[p := File d m]> fs ∧
                 clock w' = clock w) ∨
           (stamp = None ∧ files w' = <[p := File d (clock w)]> fs ∧
            clock w' = S (clock w))))).
Proof.
  unfold store. destruct (slot p (files w)) as [fs|e] eqn:Hslot;
    [|intros [= <- <-]; left; by eauto].
  destruct (faults w !! p) as [[|n]|] eqn:Hf.
  - intros [= <- <-]. left. by eauto.
  - intros [= <- <-]. right. exists fs. split; [done|]. split; [done|].
    split; [done|]. left. by exists n.
  - intros [= <- <-]. right. exists fs. split; [done|].
    destruct stamp as [m|]; simpl; (split; [done|]); (split; [done|]); right;
      (split; [done|]); (split; [done|]).
    + left. by exists m.
    + by right.
Qed.



(** A write to another path keeps a regular file as it is. *)
Lemma store_files p d stamp w r w' q d0 m0 :
  store p d stamp w = (r, w') → q ≠ p →
  files w !! q = Some (File d0 m0) → files w' !! q = Some (File d0 m0).
Proof.
  intros [(-> & _) | (fs & Hslot & _ & _ & Hw)]%store_inv Hne Hq; [done|].
  pose proof (slot_files _ _ _ _ _ _ Hslot Hq) as Hq'.
  destruct Hw as [(n & _ & _ & -> & _)
                 | (_ & _ & [(m & _ & -> & _) | (_ & -> & _)])];
    by rewrite lookup_insert_ne.
Qed.

(** The steps of [backup_and_write_code] on a regular file that is not
    its own backup destination. *)
Lemma backup_steps p code w d m :
  files w !! p = Some (File d m) →
  let dst := match files w !! backup_path_of p with
             | Some (Dir _) => path_join (backup_path_of p) (basename p)
             | _ => backup_path_of p
             end in
  p ≠ dst →
  backup_and_write_code p code w
  = mbind (store dst d (Some m))
      (fun _ => mbind (write_text p code) (fun _ => ret (backup_path_of p)))
      (logged (OpCopy2 p (backup_path_of p)) (logged (OpExists p) w)).
Proof.
  intros Hfile dst Hne.
  unfold backup_and_write_code. unfold mbind at 1. unfold path_exists.
  rewrite Hfile. rewrite bool_decide_eq_true_2 by (by eexists).
  cbn [negb]. unfold mbind at 1. unfold copy2. cbn [files clock log logged faults].
  fold dst. rewrite Hfile. rewrite bool_decide_eq_false_2 by done.
  reflexivity.
Qed.

(** Where a call on anything else stops. *)
Lemma backup_stops p code w r w' :
  let dst := match files w !! backup_path_of p with
             | Some (Dir _) => path_join (backup_path_of p) (basename p)
             | _ => backup_path_of p
             end in
  (∀ d m, files w !! p = Some (File d m) → p = dst) →
  backup_and_write_code p code w = (r, w') →
  (∃ e, r = Raise e) ∧ files w' = files w.
Proof.
  intros dst Hstop.
  unfold backup_and_write_code. unfold mbind at 1. unfold path_exists.
  destruct (files w !! p) as [[d m|names]|] eqn:Hp.
  - rewrite bool_decide_eq_true_2 by (by eexists).
    cbn [negb]. unfold mbind at 1. unfold copy2.
    cbn [files clock log logged faults]. fold dst. rewrite Hp.
    rewrite bool_decide_eq_true_2 by (by eapply Hstop).
    intros [= <- <-]. by eauto.
  - rewrite bool_decide_eq_true_2 by (by eexists).
    cbn [negb]. unfold mbind at 1. unfold copy2.
    cbn [files clock log logged faults]. fold dst. rewrite Hp.
    destruct (bool_decide (p = dst)); intros [= <- <-]; by eauto.
  - rewrite bool_decide_eq_false_2 by (by intros [? ?]).
    cbn [negb]. unfold raise. intros [= <- <-]. by eauto.
Qed.

(** The destination of the copy is the backup path or a name inside it,
    and is listed by the directory of the backup path or by the backup
    path. *)
Lemma backup_destination p w :
  let dst := match files w !! backup_path_of p with
             | Some (Dir _) => path_join (backup_path_of p) (basename p)
             | _ => backup_path_of p
             end in
  (dst = backup_path_of p ∧ parent dst = parent (backup_path_of p)) ∨
  (dst = path_join (backup_path_of p) (basename p) ∧
   parent dst = backup_path_of p).
Proof.
  simpl. destruct (files w !! backup_path_of p) as [[d m|names]|];
    [by left | right | by left].
  split; [done | apply parent_in_backup_dir].
Qed.




(** X24: a call of [backup_and_write_code] that raises has not lost the
    file: the target holds what it held, or the write to it broke off,
    leaving a beginning of the new text, after the copy of its bytes and
    stamp had been made. *)
Theorem backup_failure_keeps_original p code w e w' :
  backup_and_write_code p code w = (Raise e, w') →
  files w' !! p = files w !! p ∨
  ∃ d m dst n,
    files w !! p = Some (File d m) ∧
    (dst = backup_path_of p ∨
     dst = path_join (backup_path_of p) (basename p)) ∧
    files w' !! dst = Some (File d m) ∧
    files w' !! p = Some (File (Utf8 (take n code)) (clock w)).
Proof.
  intros Hrun.
  set (dst := match files w !! backup_path_of p with
              | Some (Dir _) => path_join (backup_path_of p) (basename p)
              | _ => backup_path_of p
              end).
  destruct (files w !! p) as [[d m|names0]|] eqn:Hp;
    [destruct (decide (p = dst)) as [Heq|Hne] | |].
  2:{ rewrite (backup_steps p code w d m Hp Hne) in Hrun.
      fold dst in Hrun. unfold mbind in Hrun.
      set (w0 := logged (OpCopy2 p (backup_path_of p)) (logged (OpExists p) w))
        in Hrun.
      destruct (store dst d (Some m) w0) as [r1 w1] eqn:Hs1.
      assert (files w1 !! p = Some (File d m)) as Hp1.
      { eapply store_files; [exact Hs1 | done | done]. }
      destruct r1 as [[]|e1]; [|injection Hrun as <- <-; by left].
      apply store_inv in Hs1
        as [(_ & e1 & [=]) | (fs & Hslot & _ & _ & [(n & [=] & _) | (_ & _ & Hw1)])].
      destruct Hw1 as [(m' & [= <-] & Hf1 & Hc1) | ([=] & _)].
      unfold write_text, ret in Hrun.
      destruct (store p (Utf8 code) None (logged (OpWrite p code) w1))
        as [r2 w2] eqn:Hs2.
      destruct r2 as [[]|e2]; [done|]. injection Hrun as <- <-.
      apply store_inv in Hs2
        as [(-> & _) | (fs2 & Hslot2 & _ & _ & [(n & _ & _ & Hf2 & _) | ([=] & _)])].
      { left. done. }
      right. exists d, m, dst, n. split; [done|].
      split.
      { destruct (backup_destination p w) as [(He & _) | (He & _)];
          fold dst in He; auto. }
      cbn [files clock logged] in Hf2, Hslot2. rewrite Hf2, Hc1.
      apply slot_inv in Hslot2 as [(-> & _) | (Hnone & _)]; [|congruence].
      split; [|apply lookup_insert_eq].
      rewrite lookup_insert_ne by done. rewrite Hf1. apply lookup_insert_eq. }
  all: apply backup_stops in Hrun as [_ ->];
    [by left | fold dst; intros d' m' Hf; congruence..].
Qed.

Lemma backup_failure_keeps_original_witness :
  (files (backup_and_write_code (py "a.py") (py "new") Cases.world_a_full).2
     !! py "a.py"
   = files Cases.world_a_full !! py "a.py" ∨
   ∃ d m dst n,
     files Cases.world_a_full !! py "a.py" = Some (File d m) ∧
     (dst = backup_path_of (py "a.py") ∨
      dst = path_join (backup_path_of (py "a.py")) (basename (py "a.py"))) ∧
     files (backup_and_write_code (py "a.py") (py "new") Cases.world_a_full).2
       !! dst = Some (File d m) ∧
     files (backup_and_write_code (py "a.py") (py "new") Cases.world_a_full).2
       !! py "a.py"
     = Some (File (Utf8 (take n (py "new"))) (clock Cases.world_a_full))) ∧
  (backup_and_write_code (py "a.py") (py "new") Cases.world_a_full).1
  = Raise OSError ∧
  files (backup_and_write_code (py "a.py") (py "new") Cases.world_a_full).2
    !! py "a.py" = Some (File (Utf8 []) 1) ∧
  files (backup_and_write_code (py "a.py") (py "new") Cases.world_a_full).2
    !! py "a.old" = Some (File (Utf8 (py "old")) 0).
Proof.
  split.
  - apply (backup_failure_keeps_original (py "a.py") (py "new")
             Cases.world_a_full OSError).
    vm_compute. reflexivity.
  - repeat split; vm_compute; reflexivity.
Defined.





(** *** Code blocks of a reply *)

Lemma span_word_spec s w r :
  span_word s = (w, r) → s = w ++ r ∧ Forall (λ c, is_word c = true) w.
Proof.
  revert w r. induction s as [|c s IH]; intros w r; simpl.
  - intros [= <- <-]. by split.
  - destruct (is_word c) eqn:Hc.
    + destruct (span_word s) as [w' r'] eqn:Hs. intros [= <- <-].
      destruct (IH w' r' eq_refl) as [-> Hw]. split; [done | by constructor].
    + intros [= <- <-]. by split.
Qed.

Lemma until_fence_spec s code rest :
  until_fence s = Some (code, rest) →
  s = code ++ fence ++ rest ∧ ¬ infix fence code.
Proof.
  revert code rest. induction s as [|c s IH]; intros code rest.
  - simpl. done.
  - cbn [until_fence]. destruct (startswith (c :: s) fence) eqn:Hf.
    + apply startswith_spec in Hf as [r Hr]. rewrite Hr.
      change (drop 3 (fence ++ r)) with r. intros [= <- <-].
      split; [done|]. intros (p & q & H). by destruct p.
    + destruct (until_fence s) as [[code' rest']|] eqn:Hu; [|done].
      intros [= <- <-]. destruct (IH code' rest' eq_refl) as [-> Hno].
      split; [done|]. intros (p & q & H). destruct p as [|d p].
      * apply not_true_iff_false in Hf. apply Hf. apply startswith_spec.
        exists (q ++ fence ++ rest').
        change (c :: code' ++ fence ++ rest')
          with ((c :: code') ++ fence ++ rest').
        rewrite H. reflexivity.
      * injection H as _ H. apply Hno. by exists p, q.
Qed.

Lemma match_here_spec s lang code rest :
  match_here s = Some (lang, code, rest) →
  s = fence ++ lang ++ LF :: code ++ fence ++ rest ∧
  Forall (λ c, is_word c = true) lang ∧
  ¬ infix fence code.
Proof.
  unfold match_here. destruct (startswith s fence) eqn:Hf; [|done].
  apply startswith_spec in Hf as [r ->].
  change (drop 3 (fence ++ r)) with r.
  destruct (span_word r) as [w r'] eqn:Hw.
  apply span_word_spec in Hw as [-> Hword].
  destruct r' as [|c r']; [done|].
  destruct (Ascii.eqb c LF) eqn:Hc; [|done]. apply Ascii.eqb_eq in Hc as ->.
  destruct (until_fence r') as [[code' rest']|] eqn:Hu; [|done].
  intros [= <- <- <-]. apply until_fence_spec in Hu as [-> Hno]. done.
Qed.

Lemma findall_from_matches s :
  ∀ skip lang code, (lang, code) ∈ findall_from s skip →
                    ∃ t rest, match_here t = Some (lang, code, rest).
Proof.
  induction s as [|c s IH]; intros skip lang code; simpl.
  - intros H. by apply elem_of_nil in H.
  - destruct skip as [|k]; [|apply IH].
    destruct (match_here (c :: s)) as [[[l cd] rest]|] eqn:Hm; [|apply IH].
    intros H. apply elem_of_cons in H as [[= -> ->] | H]; [by eauto|].
    by apply IH in H.
Qed.

(** X27: every block that [extract_code_blocks] returns has a language
    that is not empty, and a code that carries no whitespace at either
    end and holds no fence of three backticks. *)
Theorem extracted_blocks_shape content lang code :
  (lang, code) ∈ extract_code_blocks content →
  lang ≠ [] ∧
  (lang = py "python" ∨ Forall (λ c, is_word c = true) lang) ∧
  strip code = code ∧
  ¬ infix fence code.
Proof.
  unfold extract_code_blocks. intros H.
  apply list_elem_of_In, in_map_iff in H as ([l c] & [= <- <-] & H).
  apply list_elem_of_In, findall_from_matches in H as (t & rest & Hm).
  apply match_here_spec in Hm as (_ & Hword & Hno). simpl.
  split; [by destruct l|]. split; [destruct l; by auto|].
  split; [apply strip_idem|].
  intros Hin. apply Hno. eapply infix_trans; [exact Hin|].
  apply infix_strip_self.
Qed.

Lemma extracted_blocks_shape_witness :
  py "python" ≠ [] ∧
  (py "python" = py "python" ∨ Forall (λ c, is_word c = true) (py "python")) ∧
  strip (py "x = 1") = py "x = 1" ∧
  ¬ infix fence (py "x = 1").
Proof.
  apply (extracted_blocks_shape
           (py "```" ++ [LF] ++ py " x = 1 " ++ [LF] ++ py "```")
           (py "python") (py "x = 1")).
  vm_compute. left.
Defined.

(** X28: a text without a fence of three backticks has no code block. *)
Theorem no_fence_no_block content :
  ¬ infix fence content → extract_code_blocks content = [].
Proof.
  intros Hno. unfold extract_code_blocks.
  assert (∀ skip, findall_from content skip = []) as ->; [|done].
  induction content as [|c s IH]; intros skip; simpl; [done|].
  assert (¬ infix fence s) as Hs.
  { intros H. apply Hno. by apply infix_cons. }
  destruct skip as [|k]; [|by apply IH].
  destruct (match_here (c :: s)) as [[[l cd] rest]|] eqn:Hm; [|by apply IH].
  apply match_here_spec in Hm as (Heq & _). destruct Hno.
  rewrite Heq. by exists [], (l ++ LF :: cd ++ fence ++ rest).
Qed.

Lemma no_fence_no_block_witness :
  extract_code_blocks (py "use `x` and ``y``") = [].
Proof.
  apply (no_fence_no_block (py "use `x` and ``y``")).
  intros H. apply contains_spec in H. vm_compute in H. discriminate.
Defined.

Lemma findall_from_skip a s :
  findall_from (a ++ s) (length a) = findall_from s 0.
Proof. induction a as [|c a IH]; simpl; [done | apply IH]. Qed.

Lemma match_here_other c s : c ≠ "`"%char → match_here (c :: s) = None.
Proof.
  intros Hc. unfold match_here.
  destruct (startswith (c :: s) fence) eqn:Hf; [|done].
  apply startswith_spec in Hf as [r Hr]. injection Hr as -> _. done.
Qed.

Lemma findall_from_plain pre s :
  "`"%char ∉ pre → findall_from (pre ++ s) 0 = findall_from s 0.
Proof.
  induction pre as [|c pre IH]; intros Hp; [done|].
  apply not_elem_of_cons in Hp as [Hc Hp].
  cbn [app findall_from]. rewrite match_here_other by done. by apply IH.
Qed.

Lemma span_word_run lang r :
  Forall (λ c, is_word c = true) lang →
  span_word (lang ++ LF :: r) = (lang, LF :: r).
Proof.
  induction 1 as [|c lang Hc _ IH]; simpl; [done|]. by rewrite Hc, IH.
Qed.

Lemma until_fence_plain code post :
  "`"%char ∉ code → until_fence (code ++ fence ++ post) = Some (code, post).
Proof.
  induction code as [|c code IH]; intros Hc.
  - done.
  - apply not_elem_of_cons in Hc as [Hc Hcode].
    cbn [app until_fence].
    destruct (startswith (c :: code ++ fence ++ post) fence) eqn:Hf.
    + apply startswith_spec in Hf as [r Hr]. injection Hr as -> _. done.
    + by rewrite IH.
Qed.

(** X29: a block that opens with a fence, a run of word characters and a
    line feed, and closes with a fence, is extracted whole when neither
    its code nor the text before it holds a backtick; the blocks that
    follow are those of the text after the closing fence. *)
Theorem fenced_block_extracted pre lang code post :
  "`"%char ∉ pre →
  Forall (λ c, is_word c = true) lang →
  "`"%char ∉ code →
  extract_code_blocks (pre ++ fence ++ lang ++ LF :: code ++ fence ++ post)
  = (match lang with [] => py "python" | _ => lang end, strip code)
    :: extract_code_blocks post.
Proof.
  intros Hpre Hlang Hcode. unfold extract_code_blocks.
  rewrite findall_from_plain by done.
  set (body := lang ++ LF :: code ++ fence).
  assert (match_here (fence ++ lang ++ LF :: code ++ fence ++ post)
          = Some (lang, code, post)) as Hm.
  { unfold match_here. change (startswith (fence ++ _) fence) with true.
    change (drop 3 (fence ++ ?x)) with x.
    rewrite span_word_run by done. change (Ascii.eqb LF LF) with true.
    cbv iota. by rewrite until_fence_plain. }
  change (fence ++ lang ++ LF :: code ++ fence ++ post)
    with ("`"%char :: (py "``" ++ lang ++ LF :: code ++ fence ++ post)) in *.
  cbn [findall_from]. rewrite Hm. cbn [map fst snd]. f_equal.
  replace (py "``" ++ lang ++ LF :: code ++ fence ++ post)
    with ((py "``" ++ body) ++ post)
    by (unfold body; rewrite <- !app_assoc; simpl; by rewrite <- !app_assoc).
  replace (length ((py "``" ++ body) ++ post) - length post)
    with (length (py "``" ++ body)) by (rewrite (length_app _ post); lia).
  by rewrite findall_from_skip.
Qed.

Lemma fenced_block_extracted_witness :
  extract_code_blocks
    (py "Run: " ++ fence ++ py "py" ++ LF :: (py "x = 1" ++ [LF]) ++ fence
       ++ py " done")
  = (py "py", strip (py "x = 1" ++ [LF])) :: extract_code_blocks (py " done").
Proof.
  apply (fenced_block_extracted (py "Run: ") (py "py")
           (py "x = 1" ++ [LF]) (py " done")).
  - apply (bool_decide_eq_false_1 (_ ∈ _)). reflexivity.
  - by repeat constructor.
  - apply (bool_decide_eq_false_1 (_ ∈ _)). reflexivity.
Defined.

(** *** Tags *)

Lemma split_on_pieces sep s : Forall (λ piece, sep ∉ piece) (split_on sep s).
Proof.
  induction s as [|c s IH]; simpl.
  - constructor; [apply not_elem_of_nil | constructor].
  - destruct (Ascii.eqb c sep) eqn:E.
    + constructor; [apply not_elem_of_nil | done].
    + destruct (split_on sep s) as [|l ls].
      * constructor; [|constructor]. apply not_elem_of_cons. split.
        -- intros <-. by rewrite Ascii.eqb_refl in E.
        -- apply not_elem_of_nil.
      * apply Forall_cons in IH as [Hl Hls]. constructor; [|done].
        apply not_elem_of_cons. split; [|done].
        intros <-. by rewrite Ascii.eqb_refl in E.
Qed.

Lemma infix_elem_of (u s : str) c : infix u s → c ∈ u → c ∈ s.
Proof.
  intros (p & q & ->) Hc. apply elem_of_app. right. apply elem_of_app. by left.
Qed.

(** X30: the tags read from a comma-separated text are never empty,
    carry no whitespace at either end and hold no comma. *)
Theorem tags_shape text tag :
  tag ∈ tags_of text →
  tag ≠ [] ∧ strip tag = tag ∧ ","%char ∉ tag.
Proof.
  unfold tags_of. intros H.
  apply list_elem_of_In, in_map_iff in H as (piece & <- & H).
  apply list_elem_of_In, list_elem_of_filter in H as [Hne Hpiece].
  split; [done|]. split; [apply strip_idem|].
  pose proof (split_on_pieces ","%char text) as Hall.
  rewrite Forall_forall in Hall. specialize (Hall piece Hpiece).
  intros Hc. apply Hall. eapply infix_elem_of; [apply infix_strip_self | done].
Qed.

Lemma tags_shape_witness :
  py "b" ≠ [] ∧ strip (py "b") = py "b" ∧ ","%char ∉ py "b".
Proof.
  apply (tags_shape (py " a, ,b ,,") (py "b")).
  vm_compute. right. left.
Defined.
